(** * PKCS#7 streaming padding: a model of
      [cryptography/hazmat/primitives/padding.py]

    The Python module defines a scheme object [PKCS7] and two single-use
    contexts, [_PKCS7PaddingContext] and [_PKCS7UnpaddingContext], each with
    an [update] and a [finalize] method working on a private [_buffer].
    The contexts are modelled by explicit state passing: a method takes the
    object's fields and returns the fields after the call together with
    either the returned bytes or the exception that was raised. *)

From Stdlib Require Import ZArith List Lia Bool.
From Stdlib Require String.
From Stdlib Require Import Strings.Byte.
Import ListNotations.
Open Scope Z_scope.

(** ** Python values used by the module *)

Definition bytes := list byte.

(** [update] accepts any object; the code only distinguishes text
    ([six.text_type]) from everything else, which it treats as bytes. *)
Inductive pydata :=
| Bytes (d : bytes)
| Text (s : String.string).

(** The exceptions the module can raise.  The first four are named after the
    specification's taxonomy; in the source they are
    [ValueError("block_size must be ...")], [TypeError("Unicode-objects
    ...")], [ValueError("Context was already finalized")] and
    [ValueError("Invalid padding bytes")].  The last two come from the
    Python runtime: integer division by zero, and [six.int2byte] applied
    outside [range(256)]. *)
Inductive exn :=
| InvalidParameter
| EncodingError
| UseAfterFinalize
| InvalidPadding
| ZeroDivisionError
| ByteRangeError.

Inductive result (A : Type) :=
| Ok (a : A)
| Raise (e : exn).
Arguments Ok {A} a.
Arguments Raise {A} e.

(** [len(s)] *)
Definition len {A} (s : list A) : Z := Z.of_nat (List.length s).

(** Normalisation of a slice bound, as Python does for [s[i:]] and [s[:j]]:
    a negative bound counts from the end, and every bound is clipped to
    [0 .. len(s)]. *)
Definition slice_bound (n l : Z) : Z :=
  if n <? 0 then Z.max 0 (l + n) else Z.min n l.

(** [s[:j]] *)
Definition slice_to {A} (s : list A) (j : Z) : list A :=
  firstn (Z.to_nat (slice_bound j (len s))) s.

(** [s[i:]] *)
Definition slice_from {A} (s : list A) (i : Z) : list A :=
  skipn (Z.to_nat (slice_bound i (len s))) s.

(** [six.indexbytes(buf, i)] and the items of [six.iterbytes(buf)]:
    the integer value of a byte. *)
Definition byte_val (x : byte) : Z := Z.of_N (Byte.to_N x).

(** [six.indexbytes(buf, -1)]; [None] stands for the empty buffer, which
    the caller excludes beforehand. *)
Definition indexbytes_last (buf : bytes) : option Z :=
  match rev buf with
  | [] => None
  | x :: _ => Some (byte_val x)
  end.

(** [six.int2byte(n)]: defined on [range(256)] only. *)
Definition int2byte (n : Z) : option byte :=
  if n <? 0 then None else Byte.of_N (Z.to_N n).

(** [x * n] for a bytes object [x] of length one. *)
Definition bytes_mul (x : byte) (n : Z) : bytes := repeat x (Z.to_nat n).

(** ** The scheme object *)

Record scheme := { scheme_block_size : Z }.

(** [PKCS7.__init__] *)
Definition PKCS7 (block_size : Z) : result scheme :=
  if negb ((0 <=? block_size) && (block_size <? 256)) then
    Raise InvalidParameter
  else if negb (block_size mod 8 =? 0) then
    Raise InvalidParameter
  else
    Ok {| scheme_block_size := block_size |}.

(** ** [_PKCS7PaddingContext] *)

Module PaddingContext.

(** [_buffer = None] is the finalized context. *)
Record t := { block_size : Z; _buffer : option bytes }.

Definition init (block_size : Z) : t :=
  {| block_size := block_size; _buffer := Some [] |}.

Definition set_buffer (c : t) (b : option bytes) : t :=
  {| block_size := block_size c; _buffer := b |}.

Definition update (c : t) (data : pydata) : t * result bytes :=
  match _buffer c with
  | None => (c, Raise UseAfterFinalize)
  | Some buf =>
    match data with
    | Text _ => (c, Raise EncodingError)
    | Bytes d =>
      let buf := buf ++ d in
      (* [self._buffer += data] has happened when the division raises *)
      let c := set_buffer c (Some buf) in
      if block_size c / 8 =? 0 then (c, Raise ZeroDivisionError) else
      let finished_blocks := len buf / (block_size c / 8) in
      let result := slice_to buf (finished_blocks * (block_size c / 8)) in
      (set_buffer c (Some (slice_from buf (finished_blocks * (block_size c / 8)))),
       Ok result)
    end
  end.

Definition finalize (c : t) : t * result bytes :=
  match _buffer c with
  | None => (c, Raise UseAfterFinalize)
  | Some buf =>
    let pad_size := block_size c / 8 - len buf in
    match int2byte pad_size with
    | None => (c, Raise ByteRangeError)
    | Some pb =>
      let result := buf ++ bytes_mul pb pad_size in
      (set_buffer c None, Ok result)
    end
  end.

End PaddingContext.

(** ** [_PKCS7UnpaddingContext] *)

Module UnpaddingContext.

Record t := { block_size : Z; _buffer : option bytes }.

Definition init (block_size : Z) : t :=
  {| block_size := block_size; _buffer := Some [] |}.

Definition set_buffer (c : t) (b : option bytes) : t :=
  {| block_size := block_size c; _buffer := b |}.

Definition update (c : t) (data : pydata) : t * result bytes :=
  match _buffer c with
  | None => (c, Raise UseAfterFinalize)
  | Some buf =>
    match data with
    | Text _ => (c, Raise EncodingError)
    | Bytes d =>
      let buf := buf ++ d in
      let c := set_buffer c (Some buf) in
      if block_size c / 8 =? 0 then (c, Raise ZeroDivisionError) else
      let finished_blocks := Z.max (len buf / (block_size c / 8) - 1) 0 in
      let result := slice_to buf (finished_blocks * (block_size c / 8)) in
      (set_buffer c (Some (slice_from buf (finished_blocks * (block_size c / 8)))),
       Ok result)
    end
  end.

(** The loop [for b in six.iterbytes(window): mismatch |= b ^ pad_size]. *)
Definition mismatch_of (window : bytes) (pad_size : Z) : Z :=
  fold_left (fun mismatch b => Z.lor mismatch (Z.lxor (byte_val b) pad_size))
            window 0.

Definition finalize (c : t) : t * result bytes :=
  match _buffer c with
  | None => (c, Raise UseAfterFinalize)
  | Some buf =>
    match indexbytes_last buf with
    | None => (c, Raise InvalidPadding)          (* [if not self._buffer] *)
    | Some pad_size =>
      if pad_size >? block_size c / 8 then (c, Raise InvalidPadding) else
      let mismatch := mismatch_of (slice_from buf (- pad_size)) pad_size in
      if negb (mismatch =? 0) then (c, Raise InvalidPadding) else
      let res := slice_to buf (- pad_size) in
      (set_buffer c None, Ok res)
    end
  end.

End UnpaddingContext.

(** [PKCS7.padder] and [PKCS7.unpadder] *)
Definition padder (s : scheme) : PaddingContext.t :=
  PaddingContext.init (scheme_block_size s).

Definition unpadder (s : scheme) : UnpaddingContext.t :=
  UnpaddingContext.init (scheme_block_size s).

(** ** Callers

    A caller feeds a context with a sequence of [update] calls and then calls
    [finalize].  [feed] performs the [update] calls in order, stops at the
    first exception, and concatenates the returned chunks. *)

Section Feed.
Context {St : Type} (update : St -> pydata -> St * result bytes).

Fixpoint feed (c : St) (calls : list pydata) : St * result bytes :=
  match calls with
  | [] => (c, Ok [])
  | d :: ds =>
    match update c d with
    | (c', Raise e) => (c', Raise e)
    | (c', Ok out) =>
      match feed c' ds with
      | (c'', Raise e) => (c'', Raise e)
      | (c'', Ok outs) => (c'', Ok (out ++ outs))
      end
    end
  end.

(** [feed] followed by [finalize], all returned chunks concatenated. *)
Definition drive (finalize : St -> St * result bytes)
           (c : St) (calls : list pydata) : result bytes :=
  match feed c calls with
  | (_, Raise e) => Raise e
  | (c', Ok outs) =>
    match finalize c' with
    | (_, Raise e) => Raise e
    | (_, Ok fin) => Ok (outs ++ fin)
    end
  end.
End Feed.

(** [pad(chunks, b)]: [PKCS7(b).padder()], one [update] per chunk, then
    [finalize]. *)
Definition pad (b : Z) (chunks : list bytes) : result bytes :=
  match PKCS7 b with
  | Raise e => Raise e
  | Ok s => drive PaddingContext.update PaddingContext.finalize
                  (padder s) (map Bytes chunks)
  end.

(** [unpad(chunks, b)]: the same with [PKCS7(b).unpadder()]. *)
Definition unpad (b : Z) (chunks : list bytes) : result bytes :=
  match PKCS7 b with
  | Raise e => Raise e
  | Ok s => drive UnpaddingContext.update UnpaddingContext.finalize
                  (unpadder s) (map Bytes chunks)
  end.

(** The block sizes the round-trip property is stated for. *)
Definition valid_block_size (b : Z) : Prop :=
  8 <= b <= 248 /\ b mod 8 = 0.

(** ** Test operations of the specification *)

(** The byte with integer value [z mod 256]. *)
Definition byte_of_Z (z : Z) : byte :=
  match Byte.of_N (Z.to_N (z mod 256)) with
  | Some x => x
  | None => x00
  end.

(** Flipping bit [k] of a byte, and of the byte at index [i] of a sequence. *)
Definition flip_byte (k : Z) (x : byte) : byte :=
  byte_of_Z (Z.lxor (byte_val x) (2 ^ k)).

Fixpoint flip_bit (i : nat) (k : Z) (s : bytes) : bytes :=
  match s with
  | [] => []
  | x :: s' =>
    match i with
    | O => flip_byte k x :: s'
    | S i' => x :: flip_bit i' k s'
    end
  end.

(** The engine after a sequence of [update] calls, whatever each one
    returned or raised. *)
Definition pad_after (c : PaddingContext.t) (calls : list pydata) :
  PaddingContext.t :=
  fold_left (fun c d => fst (PaddingContext.update c d)) calls c.

Definition unpad_after (c : UnpaddingContext.t) (calls : list pydata) :
  UnpaddingContext.t :=
  fold_left (fun c d => fst (UnpaddingContext.update c d)) calls c.

(** The bytes a sequence of [update] calls supplies, call by call and in
    total: text is refused and contributes nothing. *)
Definition byte_chunks (calls : list pydata) : list bytes :=
  flat_map (fun d => match d with Bytes x => [x] | Text _ => [] end) calls.

Definition total_input (calls : list pydata) : bytes :=
  concat (byte_chunks calls).

(** A later call on a context: [update(data)] or [finalize()]. *)
Inductive call :=
| Update (data : pydata)
| Finalize.

Definition pad_call (c : PaddingContext.t) (k : call) :
  PaddingContext.t * result bytes :=
  match k with
  | Update d => PaddingContext.update c d
  | Finalize => PaddingContext.finalize c
  end.

Definition unpad_call (c : UnpaddingContext.t) (k : call) :
  UnpaddingContext.t * result bytes :=
  match k with
  | Update d => UnpaddingContext.update c d
  | Finalize => UnpaddingContext.finalize c
  end.

(** The outcomes of a sequence of calls, in order. *)
Fixpoint outcomes {St : Type} (step : St -> call -> St * result bytes)
         (c : St) (ks : list call) : list (result bytes) :=
  match ks with
  | [] => []
  | k :: ks' => snd (step c k) :: outcomes step (fst (step c k)) ks'
  end.

(** The padded encoding of [m]: [m] followed by [n] bytes of value [n],
    where [n = bsb - len m mod bsb]. *)
Definition pad_length (b : Z) (m : bytes) : Z := b / 8 - len m mod (b / 8).

(** The contract of [finalize] read literally: the outcome is either
    InvalidPadding, when the pad size exceeds the block or the buffer does
    not end with [pad_size] bytes of value [pad_size], or the buffer without
    exactly its last [pad_size] bytes. *)
Definition finalize_literal_contract (c : UnpaddingContext.t) (buf : bytes) : Prop :=
  let pad_size := byte_val (last buf x00) in
  let bsb := UnpaddingContext.block_size c / 8 in
  let well_padded (pre win : bytes) :=
    buf = pre ++ win /\ len win = pad_size /\
    Forall (fun x => byte_val x = pad_size) win in
  (snd (UnpaddingContext.finalize c) = Raise InvalidPadding /\
   (bsb < pad_size \/ ~ exists pre win, well_padded pre win))
  \/
  (exists pre win,
      well_padded pre win /\ pad_size <= bsb /\
      snd (UnpaddingContext.finalize c) = Ok pre).

(** * Properties *)

(** ** The scenarios of the specification *)

Example pad_7bytes :
  pad 64 [["7"; " "; "b"; "y"; "t"; "e"; "s"]%byte]
  = Ok ["7"; " "; "b"; "y"; "t"; "e"; "s"; x01]%byte.
Proof. reflexivity. Qed.

Example pad_exact_block :
  pad 64 [["E"; "x"; "a"]%byte; ["c"; "t"; "B"; "l"; "k"]%byte]
  = Ok (["E"; "x"; "a"; "c"; "t"; "B"; "l"; "k"]%byte ++ repeat x08 8).
Proof. reflexivity. Qed.

Example unpad_7bytes :
  unpad 64 [["7"; " "; "b"; "y"]%byte; ["t"; "e"; "s"; x01]%byte]
  = Ok ["7"; " "; "b"; "y"; "t"; "e"; "s"]%byte.
Proof. reflexivity. Qed.

Example pad_empty_128 : pad 128 [] = Ok (repeat x10 16).
Proof. reflexivity. Qed.

Example unpad_empty_128 : unpad 128 [repeat x10 16] = Ok [].
Proof. reflexivity. Qed.


(** ** Lengths, slices and bytes *)

Lemma len_nonneg {A} (s : list A) : 0 <= len s.
Proof. unfold len; lia. Qed.

Lemma len_app {A} (s t : list A) : len (s ++ t) = len s + len t.
Proof. unfold len; rewrite length_app; lia. Qed.

Lemma len_nil_inv {A} (s : list A) : len s = 0 -> s = [].
Proof. destruct s; [reflexivity | unfold len; simpl; lia]. Qed.

Lemma len_repeat {A} (x : A) (n : Z) : 0 <= n -> len (repeat x (Z.to_nat n)) = n.
Proof. intros Hn; unfold len; rewrite repeat_length; lia. Qed.

(** A prefix bound inside the sequence cuts it there. *)
Lemma slice_at {A} (s : list A) (k : Z) :
  0 <= k <= len s ->
  slice_to s k ++ slice_from s k = s /\ len (slice_to s k) = k /\
  len (slice_from s k) = len s - k.
Proof.
  intros Hk. unfold slice_to, slice_from, slice_bound.
  assert (Hlt : (k <? 0) = false) by (apply Z.ltb_ge; lia).
  rewrite Hlt, Z.min_l by lia.
  split; [apply firstn_skipn|].
  unfold len in *. rewrite length_firstn, length_skipn. lia.
Qed.

(** Two cuts of one sequence at the same place are the same cut. *)
Lemma app_same_length {A} (a c b d : list A) :
  a ++ b = c ++ d -> len a = len c -> a = c /\ b = d.
Proof.
  revert c; induction a as [|x a IH]; intros [|y c] H Hl;
    unfold len in *; simpl in *; try lia.
  - auto.
  - injection H as Hx H; subst y.
    destruct (IH c H) as [Ha Hb]; [lia | subst; auto].
Qed.

(** If a suffix of [a ++ b] is at least as long as [b], it ends with [b]. *)
Lemma app_suffix_split {A} (o buf a b : list A) :
  o ++ buf = a ++ b -> len b <= len buf ->
  exists t, buf = t ++ b /\ o ++ t = a.
Proof.
  revert a; induction o as [|x o IH]; intros a H Hl; simpl in *.
  - subst buf. exists a; auto.
  - destruct a as [|y a]; simpl in *.
    + subst b. unfold len in Hl; simpl in Hl.
      rewrite length_app in Hl. lia.
    + injection H as Hx H; subst y.
      destruct (IH a H Hl) as (t & Hb & Ha); subst.
      exists t; auto.
Qed.

Lemma byte_val_range (x : byte) : 0 <= byte_val x < 256.
Proof.
  unfold byte_val. pose proof (Byte.to_N_bounded x). lia.
Qed.

Lemma byte_val_inj (x y : byte) : byte_val x = byte_val y -> x = y.
Proof.
  unfold byte_val; intros H. apply N2Z.inj in H.
  pose proof (Byte.of_to_N x) as Hx. rewrite H, Byte.of_to_N in Hx.
  congruence.
Qed.

Lemma int2byte_some (n : Z) :
  0 <= n < 256 -> exists x, int2byte n = Some x /\ byte_val x = n.
Proof.
  intros Hn. unfold int2byte.
  assert (Hlt : (n <? 0) = false) by (apply Z.ltb_ge; lia). rewrite Hlt.
  destruct (Byte.of_N (Z.to_N n)) as [x|] eqn:E.
  - exists x; split; [reflexivity|].
    apply Byte.to_of_N in E. unfold byte_val; rewrite E; lia.
  - apply Byte.of_N_None_iff in E. lia.
Qed.

Lemma byte_val_of_Z (z : Z) : byte_val (byte_of_Z z) = z mod 256.
Proof.
  unfold byte_of_Z. pose proof (Z.mod_pos_bound z 256 ltac:(lia)) as Hr.
  destruct (Byte.of_N (Z.to_N (z mod 256))) as [x|] eqn:E.
  - apply Byte.to_of_N in E. unfold byte_val; rewrite E; lia.
  - apply Byte.of_N_None_iff in E. lia.
Qed.

Lemma indexbytes_last_snoc (s : bytes) (x : byte) :
  indexbytes_last (s ++ [x]) = Some (byte_val x).
Proof. unfold indexbytes_last. rewrite rev_app_distr. reflexivity. Qed.

Lemma indexbytes_last_nil : indexbytes_last [] = None.
Proof. reflexivity. Qed.

Lemma indexbytes_last_spec (s : bytes) (d : byte) :
  s <> [] -> indexbytes_last s = Some (byte_val (last s d)).
Proof.
  intros Hs. destruct (exists_last Hs) as (s' & x & ->).
  rewrite indexbytes_last_snoc, last_last. reflexivity.
Qed.

(** ** The scheme object *)

Lemma PKCS7_accepts (b : Z) :
  0 <= b < 256 -> b mod 8 = 0 -> PKCS7 b = Ok {| scheme_block_size := b |}.
Proof.
  intros Hb Hm. unfold PKCS7.
  assert (H1 : (0 <=? b) = true) by (apply Z.leb_le; lia).
  assert (H2 : (b <? 256) = true) by (apply Z.ltb_lt; lia).
  assert (H3 : (b mod 8 =? 0) = true) by (apply Z.eqb_eq; lia).
  now rewrite H1, H2, H3.
Qed.

Lemma PKCS7_valid (b : Z) :
  valid_block_size b -> PKCS7 b = Ok {| scheme_block_size := b |}.
Proof. intros [Hb Hm]. apply PKCS7_accepts; [lia | assumption]. Qed.

Lemma valid_block_bytes (b : Z) : valid_block_size b -> 1 <= b / 8 <= 31.
Proof.
  intros [Hb Hm]. pose proof (Z.div_mod b 8 ltac:(lia)). lia.
Qed.

(** ** The padding context *)

Lemma pad_set_buffer_same (c : PaddingContext.t) (buf : bytes) :
  PaddingContext._buffer c = Some buf ->
  PaddingContext.set_buffer c (Some buf) = c.
Proof. destruct c; simpl; intros ->; reflexivity. Qed.

(** One [update] with bytes on an active context: the buffer grows by the
    data, whole blocks leave it, less than a block stays. *)
Lemma pad_update_bytes (c : PaddingContext.t) (buf d : bytes) :
  PaddingContext._buffer c = Some buf ->
  0 < PaddingContext.block_size c / 8 ->
  exists out buf',
    PaddingContext.update c (Bytes d)
    = (PaddingContext.set_buffer c (Some buf'), Ok out) /\
    out ++ buf' = buf ++ d /\
    (PaddingContext.block_size c / 8 | len out) /\
    len buf' < PaddingContext.block_size c / 8.
Proof.
  intros Hbuf Hpos. unfold PaddingContext.update. rewrite Hbuf. simpl.
  set (bsb := PaddingContext.block_size c / 8) in *.
  assert (Hz : (bsb =? 0) = false) by (apply Z.eqb_neq; lia). rewrite Hz.
  set (X := buf ++ d). set (k := len X / bsb * bsb).
  pose proof (len_nonneg X) as HX.
  pose proof (Z.div_mod (len X) bsb ltac:(lia)) as Hdm.
  pose proof (Z.mod_pos_bound (len X) bsb Hpos) as Hr.
  assert (Hq : 0 <= len X / bsb) by (apply Z.div_pos; lia).
  assert (Hk : 0 <= k <= len X) by (unfold k; nia).
  destruct (slice_at X k Hk) as (Happ & Hl1 & Hl2).
  exists (slice_to X k), (slice_from X k). repeat split.
  - assumption.
  - rewrite Hl1. exists (len X / bsb). reflexivity.
  - rewrite Hl2. unfold k. nia.
Qed.

(** A sequence of [update] calls with bytes. *)
Lemma pad_feed_spec (chunks : list bytes) :
  forall (c : PaddingContext.t) (buf : bytes),
    PaddingContext._buffer c = Some buf ->
    0 < PaddingContext.block_size c / 8 ->
    len buf < PaddingContext.block_size c / 8 ->
    exists outs buf',
      feed PaddingContext.update c (map Bytes chunks)
      = (PaddingContext.set_buffer c (Some buf'), Ok outs) /\
      outs ++ buf' = buf ++ concat chunks /\
      (PaddingContext.block_size c / 8 | len outs) /\
      len buf' < PaddingContext.block_size c / 8.
Proof.
  induction chunks as [|d ds IH]; intros c buf Hbuf Hpos Hlt; simpl.
  - exists [], buf. rewrite pad_set_buffer_same by assumption.
    rewrite app_nil_r. repeat split; [apply Z.divide_0_r | assumption].
  - destruct (pad_update_bytes c buf d Hbuf Hpos) as (out & buf1 & -> & Happ & Hdiv & Hlt1).
    destruct (IH (PaddingContext.set_buffer c (Some buf1)) buf1 eq_refl Hpos Hlt1)
      as (outs & buf' & -> & Happ' & Hdiv' & Hlt').
    exists (out ++ outs), buf'. simpl in *. repeat split.
    + rewrite <- app_assoc, Happ', app_assoc, Happ, <- app_assoc. reflexivity.
    + rewrite len_app. now apply Z.divide_add_r.
    + assumption.
Qed.

(** What stays in the padder's buffer is determined by the total length. *)
Lemma tail_length_mod (bsb : Z) {A} (outs buf : list A) :
  0 < bsb -> (bsb | len outs) -> len buf < bsb ->
  len buf = len (outs ++ buf) mod bsb.
Proof.
  intros Hpos [j Hj] Hlt. rewrite len_app, Hj.
  rewrite Z.add_comm, Z.mod_add by lia.
  symmetry; apply Z.mod_small. pose proof (len_nonneg buf). lia.
Qed.

(** [PaddingContext.finalize] on a buffer shorter than a block. *)
Lemma pad_finalize_active (c : PaddingContext.t) (buf : bytes) :
  PaddingContext._buffer c = Some buf ->
  len buf < PaddingContext.block_size c / 8 < 256 ->
  exists pb,
    byte_val pb = PaddingContext.block_size c / 8 - len buf /\
    PaddingContext.finalize c
    = (PaddingContext.set_buffer c None,
       Ok (buf ++ repeat pb (Z.to_nat (PaddingContext.block_size c / 8 - len buf)))).
Proof.
  intros Hbuf Hlt. unfold PaddingContext.finalize. rewrite Hbuf.
  pose proof (len_nonneg buf).
  destruct (int2byte_some (PaddingContext.block_size c / 8 - len buf))
    as (pb & -> & Hpb); [lia|].
  exists pb. split; [assumption | reflexivity].
Qed.

Lemma pad_length_range (b : Z) (m : bytes) :
  valid_block_size b -> 1 <= pad_length b m <= b / 8.
Proof.
  intros Hv. pose proof (valid_block_bytes b Hv).
  pose proof (Z.mod_pos_bound (len m) (b / 8) ltac:(lia)).
  unfold pad_length. lia.
Qed.

Lemma pad_spec (b : Z) (chunks : list bytes) :
  valid_block_size b ->
  exists pb,
    byte_val pb = pad_length b (concat chunks) /\
    pad b chunks
    = Ok (concat chunks ++ repeat pb (Z.to_nat (pad_length b (concat chunks)))).
Proof.
  intros Hv. pose proof (valid_block_bytes b Hv) as Hb.
  unfold pad. rewrite (PKCS7_valid b Hv). unfold drive, padder; simpl.
  destruct (pad_feed_spec chunks (PaddingContext.init b) [] eq_refl)
    as (outs & buf' & -> & Happ & Hdiv & Hlt).
  { simpl; lia. }
  { unfold len; simpl; lia. }
  simpl in *.
  destruct (pad_finalize_active
              (PaddingContext.set_buffer (PaddingContext.init b) (Some buf'))
              buf' eq_refl)
    as (pb & Hpb & ->).
  { simpl; lia. }
  simpl in Hpb.
  pose proof (tail_length_mod (b / 8) outs buf' ltac:(lia) Hdiv Hlt) as Hlen.
  rewrite Happ in Hlen. exists pb. unfold pad_length.
  rewrite <- Hlen. split; [assumption|].
  rewrite app_assoc, Happ. reflexivity.
Qed.

(** ** The unpadding context *)

Lemma unpad_set_buffer_same (c : UnpaddingContext.t) (buf : bytes) :
  UnpaddingContext._buffer c = Some buf ->
  UnpaddingContext.set_buffer c (Some buf) = c.
Proof. destruct c; simpl; intros ->; reflexivity. Qed.

(** One [update] with bytes on an active context: whole blocks leave the
    buffer, but a full block stays as soon as there is one. *)
Lemma unpad_update_bytes (c : UnpaddingContext.t) (buf d : bytes) :
  UnpaddingContext._buffer c = Some buf ->
  0 < UnpaddingContext.block_size c / 8 ->
  exists out buf',
    UnpaddingContext.update c (Bytes d)
    = (UnpaddingContext.set_buffer c (Some buf'), Ok out) /\
    out ++ buf' = buf ++ d /\
    (UnpaddingContext.block_size c / 8 | len out) /\
    len buf' < 2 * (UnpaddingContext.block_size c / 8) /\
    (UnpaddingContext.block_size c / 8 <= len (buf ++ d) ->
     UnpaddingContext.block_size c / 8 <= len buf').
Proof.
  intros Hbuf Hpos. unfold UnpaddingContext.update. rewrite Hbuf. simpl.
  set (bsb := UnpaddingContext.block_size c / 8) in *.
  assert (Hz : (bsb =? 0) = false) by (apply Z.eqb_neq; lia). rewrite Hz.
  set (X := buf ++ d). set (fb := Z.max (len X / bsb - 1) 0).
  pose proof (len_nonneg X) as HX.
  pose proof (Z.div_mod (len X) bsb ltac:(lia)) as Hdm.
  pose proof (Z.mod_pos_bound (len X) bsb Hpos) as Hr.
  assert (Hq : 0 <= len X / bsb) by (apply Z.div_pos; lia).
  assert (Hfb : (len X / bsb = 0 /\ fb = 0) \/ (1 <= len X / bsb /\ fb = len X / bsb - 1))
    by (unfold fb; lia).
  assert (Hrest : 0 <= fb * bsb <= len X /\
                  len X - fb * bsb < 2 * bsb /\
                  (bsb <= len X -> bsb <= len X - fb * bsb)).
  { destruct Hfb as [[Hq0 Hf] | [Hq1 Hf]]; rewrite Hf.
    - rewrite Hq0 in Hdm. lia.
    - replace ((len X / bsb - 1) * bsb) with (bsb * (len X / bsb) - bsb) by ring.
      nia. }
  destruct Hrest as (Hk & Hlt & Hge).
  destruct (slice_at X (fb * bsb) Hk) as (Happ & Hl1 & Hl2).
  exists (slice_to X (fb * bsb)), (slice_from X (fb * bsb)). repeat split.
  - assumption.
  - rewrite Hl1. exists fb. reflexivity.
  - rewrite Hl2. assumption.
  - rewrite Hl2. assumption.
Qed.

(** A sequence of [update] calls with bytes. *)
Lemma unpad_feed_spec (chunks : list bytes) :
  forall (c : UnpaddingContext.t) (buf : bytes),
    UnpaddingContext._buffer c = Some buf ->
    0 < UnpaddingContext.block_size c / 8 ->
    len buf < 2 * (UnpaddingContext.block_size c / 8) ->
    exists outs buf',
      feed UnpaddingContext.update c (map Bytes chunks)
      = (UnpaddingContext.set_buffer c (Some buf'), Ok outs) /\
      outs ++ buf' = buf ++ concat chunks /\
      (UnpaddingContext.block_size c / 8 | len outs) /\
      len buf' < 2 * (UnpaddingContext.block_size c / 8) /\
      (UnpaddingContext.block_size c / 8 <= len (buf ++ concat chunks) ->
       UnpaddingContext.block_size c / 8 <= len buf').
Proof.
  induction chunks as [|d ds IH]; intros c buf Hbuf Hpos Hlt; simpl.
  - exists [], buf. rewrite unpad_set_buffer_same by assumption.
    rewrite app_nil_r. repeat split; auto using Z.divide_0_r.
  - destruct (unpad_update_bytes c buf d Hbuf Hpos)
      as (out & buf1 & -> & Happ & Hdiv & Hlt1 & Hge1).
    destruct (IH (UnpaddingContext.set_buffer c (Some buf1)) buf1 eq_refl Hpos Hlt1)
      as (outs & buf' & -> & Happ' & Hdiv' & Hlt' & Hge').
    exists (out ++ outs), buf'. simpl in *.
    assert (Hall : (out ++ outs) ++ buf' = buf ++ d ++ concat ds)
      by (rewrite <- app_assoc, Happ', app_assoc, Happ, <- app_assoc; reflexivity).
    repeat split.
    + assumption.
    + rewrite len_app. now apply Z.divide_add_r.
    + assumption.
    + intros Hge.
      destruct (Z_le_gt_dec (UnpaddingContext.block_size c / 8) (len (buf1 ++ concat ds)))
        as [Hbig | Hsmall]; [auto|].
      (* nothing has been emitted yet, so the total is what is buffered *)
      exfalso.
      assert (Hb1 : len buf1 < UnpaddingContext.block_size c / 8).
      { rewrite len_app in Hsmall. pose proof (len_nonneg (concat ds)). lia. }
      assert (Hbd : len (buf ++ d) < UnpaddingContext.block_size c / 8) by lia.
      destruct Hdiv as [j Hj].
      assert (Ho : len out = 0).
      { rewrite <- Happ, len_app in Hbd.
        pose proof (len_nonneg out). pose proof (len_nonneg buf1).
        set (bsb := UnpaddingContext.block_size c / 8) in *.
        assert (j = 0) by nia. subst j. lia. }
      apply len_nil_inv in Ho. subst out. simpl in Happ. subst buf1.
      rewrite <- app_assoc in Hsmall. lia.
Qed.

(** What stays in the unpadder's buffer when the total input is a positive
    number of whole blocks: exactly the last block. *)
Lemma unpad_keeps_last_block (bsb : Z) {A} (outs buf : list A) :
  0 < bsb -> (bsb | len outs) -> (bsb | len (outs ++ buf)) ->
  bsb <= len buf < 2 * bsb -> len buf = bsb.
Proof.
  intros Hpos [j Hj] [i Hi] Hb. rewrite len_app in Hi.
  assert (Hd : len buf = (i - j) * bsb) by lia.
  assert (i - j = 1) by nia. nia.
Qed.

(** The validation loop reports zero exactly when every byte of the window
    has the value [pad_size]. *)
Lemma mismatch_fold (window : bytes) (pad_size : Z) :
  forall acc,
    fold_left (fun mismatch b => Z.lor mismatch (Z.lxor (byte_val b) pad_size))
              window acc = 0
    <-> acc = 0 /\ Forall (fun x => byte_val x = pad_size) window.
Proof.
  induction window as [|x w IH]; intros acc; simpl.
  - split; [intros ->; auto | tauto].
  - rewrite IH, Z.lor_eq_0_iff, Z.lxor_eq_0_iff. split.
    + intros [[Ha Hx] Hw]. auto.
    + intros [Ha Hw]. inversion Hw; subst. auto.
Qed.

Lemma mismatch_of_zero (window : bytes) (pad_size : Z) :
  UnpaddingContext.mismatch_of window pad_size = 0
  <-> Forall (fun x => byte_val x = pad_size) window.
Proof.
  unfold UnpaddingContext.mismatch_of. rewrite mismatch_fold. tauto.
Qed.

(** The two slices of [finalize] for a pad size of at least one: the window
    is the last [min(pad_size, len(buf))] bytes, the result is the rest. *)
Lemma finalize_slices (buf pre win : bytes) (pad_size : Z) :
  1 <= pad_size -> buf = pre ++ win ->
  len win = Z.min pad_size (len buf) ->
  slice_to buf (- pad_size) = pre /\ slice_from buf (- pad_size) = win.
Proof.
  intros Hp Hbuf Hwin. unfold slice_to, slice_from, slice_bound.
  assert (Hneg : (- pad_size <? 0) = true) by (apply Z.ltb_lt; lia).
  rewrite Hneg.
  set (n := Z.to_nat (Z.max 0 (len buf + - pad_size))).
  assert (Hn : n = length pre).
  { unfold n. subst buf. rewrite len_app in *. unfold len in *. lia. }
  apply app_same_length.
  - rewrite firstn_skipn. assumption.
  - unfold len. rewrite length_firstn, Hn. subst buf.
    rewrite length_app. lia.
Qed.

(** [UnpaddingContext.finalize], case by case, for a pad size of at least
    one. *)
Lemma unpad_finalize_cases (c : UnpaddingContext.t) (buf pre win : bytes) :
  UnpaddingContext._buffer c = Some buf -> buf <> [] ->
  buf = pre ++ win ->
  1 <= byte_val (last buf x00) ->
  len win = Z.min (byte_val (last buf x00)) (len buf) ->
  UnpaddingContext.finalize c
  = if (byte_val (last buf x00) >? UnpaddingContext.block_size c / 8)
       || negb (forallb (fun x => byte_val x =? byte_val (last buf x00)) win)
    then (c, Raise InvalidPadding)
    else (UnpaddingContext.set_buffer c None, Ok pre).
Proof.
  intros Hbuf Hne Hsplit Hp Hwin. unfold UnpaddingContext.finalize.
  rewrite Hbuf, (indexbytes_last_spec buf x00 Hne).
  set (p := byte_val (last buf x00)) in *.
  destruct (p >? UnpaddingContext.block_size c / 8); [reflexivity|]. simpl.
  destruct (finalize_slices buf pre win p Hp Hsplit Hwin) as [-> ->].
  destruct (forallb (fun x => byte_val x =? p) win) eqn:Hall; simpl.
  - assert (Hm : UnpaddingContext.mismatch_of win p = 0).
    { apply mismatch_of_zero, Forall_forall. intros x Hx.
      rewrite forallb_forall in Hall. apply Z.eqb_eq. auto. }
    rewrite Hm. reflexivity.
  - destruct (UnpaddingContext.mismatch_of win p =? 0) eqn:Hm; [|reflexivity].
    exfalso. apply Z.eqb_eq, mismatch_of_zero in Hm.
    rewrite Forall_forall in Hm.
    assert (forallb (fun x => byte_val x =? p) win = true); [|congruence].
    apply forallb_forall. intros x Hx. apply Z.eqb_eq. auto.
Qed.

(** [finalize] rejects a non-empty buffer whenever the checked window holds a
    byte that differs from the pad size. *)
Lemma unpad_finalize_mismatch (c : UnpaddingContext.t) (buf : bytes) (x : byte) :
  UnpaddingContext._buffer c = Some buf -> buf <> [] ->
  In x (slice_from buf (- byte_val (last buf x00))) ->
  byte_val x <> byte_val (last buf x00) ->
  UnpaddingContext.finalize c = (c, Raise InvalidPadding).
Proof.
  intros Hbuf Hne Hin Hx. unfold UnpaddingContext.finalize.
  rewrite Hbuf, (indexbytes_last_spec buf x00 Hne).
  set (p := byte_val (last buf x00)) in *.
  destruct (p >? UnpaddingContext.block_size c / 8); [reflexivity|].
  destruct (UnpaddingContext.mismatch_of (slice_from buf (- p)) p =? 0) eqn:Hm;
    [|reflexivity].
  exfalso. apply Z.eqb_eq, mismatch_of_zero in Hm.
  rewrite Forall_forall in Hm. auto.
Qed.

Lemma unpad_finalize_oversize (c : UnpaddingContext.t) (buf : bytes) :
  UnpaddingContext._buffer c = Some buf -> buf <> [] ->
  UnpaddingContext.block_size c / 8 < byte_val (last buf x00) ->
  UnpaddingContext.finalize c = (c, Raise InvalidPadding).
Proof.
  intros Hbuf Hne Hgt. unfold UnpaddingContext.finalize.
  rewrite Hbuf, (indexbytes_last_spec buf x00 Hne).
  assert (H : (byte_val (last buf x00) >? UnpaddingContext.block_size c / 8) = true)
    by (apply Z.gtb_lt; lia).
  now rewrite H.
Qed.

Lemma last_app_repeat (t : bytes) (x : byte) (n : nat) :
  (0 < n)%nat -> last (t ++ repeat x n) x00 = x.
Proof.
  intros Hn. destruct n as [|n]; [lia|].
  simpl repeat. rewrite repeat_cons, app_assoc. apply last_last.
Qed.

(** A buffer that ends with [n] bytes of value [n], [1 <= n <= bsb], is
    accepted and loses exactly those bytes. *)
Lemma unpad_finalize_padded (c : UnpaddingContext.t) (t : bytes) (pb : byte) :
  UnpaddingContext._buffer c = Some (t ++ repeat pb (Z.to_nat (byte_val pb))) ->
  1 <= byte_val pb <= UnpaddingContext.block_size c / 8 ->
  UnpaddingContext.finalize c = (UnpaddingContext.set_buffer c None, Ok t).
Proof.
  intros Hbuf Hp.
  set (buf := t ++ repeat pb (Z.to_nat (byte_val pb))) in *.
  assert (Hlast : last buf x00 = pb) by (apply last_app_repeat; lia).
  assert (Hne : buf <> []).
  { unfold buf. destruct (Z.to_nat (byte_val pb)) eqn:E; [lia|].
    destruct t; discriminate. }
  rewrite (unpad_finalize_cases c buf t (repeat pb (Z.to_nat (byte_val pb)))
             Hbuf Hne eq_refl); rewrite Hlast.
  - assert (H1 : (byte_val pb >? UnpaddingContext.block_size c / 8) = false)
      by (rewrite Z.gtb_ltb; apply Z.ltb_ge; lia).
    assert (H2 : forallb (fun x => byte_val x =? byte_val pb)
                         (repeat pb (Z.to_nat (byte_val pb))) = true).
    { apply forallb_forall. intros x Hx. apply repeat_spec in Hx.
      rewrite Hx. apply Z.eqb_refl. }
    now rewrite H1, H2.
  - lia.
  - unfold buf. rewrite len_app, len_repeat by lia.
    pose proof (len_nonneg t). lia.
Qed.

(** Feeding the unpadder a positive number of whole blocks leaves exactly
    the last block in the buffer. *)
Lemma unpad_feed_blocks (b : Z) (chunks : list bytes) :
  valid_block_size b ->
  (b / 8 | len (concat chunks)) -> b / 8 <= len (concat chunks) ->
  exists outs buf,
    feed UnpaddingContext.update (UnpaddingContext.init b) (map Bytes chunks)
    = (UnpaddingContext.set_buffer (UnpaddingContext.init b) (Some buf), Ok outs) /\
    outs ++ buf = concat chunks /\ len buf = b / 8.
Proof.
  intros Hv Hdiv Hge. pose proof (valid_block_bytes b Hv) as Hb.
  destruct (unpad_feed_spec chunks (UnpaddingContext.init b) [] eq_refl)
    as (outs & buf & Hfeed & Happ & Hd & Hlt & Hg).
  { simpl; lia. }
  { change (0 < 2 * (b / 8)). lia. }
  simpl in *. exists outs, buf. repeat split; try assumption.
  apply (unpad_keeps_last_block (b / 8) outs buf).
  - lia.
  - assumption.
  - now rewrite Happ.
  - split; [apply Hg; assumption | assumption].
Qed.

Lemma padded_length (b : Z) (m : bytes) :
  valid_block_size b ->
  (b / 8 | len m + pad_length b m) /\ b / 8 <= len m + pad_length b m.
Proof.
  intros Hv. pose proof (valid_block_bytes b Hv) as Hb.
  pose proof (Z.div_mod (len m) (b / 8) ltac:(lia)) as Hdm.
  pose proof (Z.mod_pos_bound (len m) (b / 8) ltac:(lia)) as Hr.
  assert (Hq : 0 <= len m / (b / 8)) by (apply Z.div_pos; [apply len_nonneg | lia]).
  unfold pad_length. split.
  - exists (len m / (b / 8) + 1). lia.
  - nia.
Qed.

(** ** Round trip *)

(** C1.  For every valid block size and every way of supplying a message
    [m] to a padder, the padder succeeds, and supplying its concatenated
    output to an unpadder, again in any number of [update] calls, returns
    exactly [m]. *)
Theorem pad_unpad_roundtrip (b : Z) (chunks : list bytes) :
  valid_block_size b ->
  exists p,
    pad b chunks = Ok p /\
    forall chunks' : list bytes,
      concat chunks' = p -> unpad b chunks' = Ok (concat chunks).
Proof.
  intros Hv. pose proof (valid_block_bytes b Hv) as Hb.
  destruct (pad_spec b chunks Hv) as (pb & Hpb & Hpad).
  set (m := concat chunks) in *.
  pose proof (pad_length_range b m Hv) as Hrange.
  destruct (padded_length b m Hv) as [Hdiv Hge].
  eexists; split; [exact Hpad|]. intros chunks' Hcat.
  assert (Hlen : len (concat chunks') = len m + pad_length b m)
    by (rewrite Hcat, len_app, len_repeat; lia).
  destruct (unpad_feed_blocks b chunks' Hv) as (outs & buf & Hfeed & Happ & Hbuf);
    try (rewrite Hlen; assumption).
  rewrite Hcat in Happ.
  destruct (app_suffix_split outs buf m _ Happ) as (t & Ht & Hm).
  { rewrite len_repeat; lia. }
  unfold unpad. rewrite (PKCS7_valid b Hv). unfold drive, unpadder; simpl.
  rewrite Hfeed.
  rewrite (unpad_finalize_padded _ t pb).
  - rewrite Hm. reflexivity.
  - simpl. rewrite Ht, Hpb. reflexivity.
  - simpl. lia.
Qed.

Lemma pad_unpad_roundtrip_witness :
  valid_block_size 64 /\
  exists p,
    pad 64 [["a"; "b"]%byte; ["c"]%byte] = Ok p /\
    forall chunks' : list bytes,
      concat chunks' = p ->
      unpad 64 chunks' = Ok (concat [["a"; "b"]%byte; ["c"]%byte]).
Proof.
  assert (Hv : valid_block_size 64) by (split; [lia | reflexivity]).
  split; [exact Hv | exact (pad_unpad_roundtrip 64 _ Hv)].
Defined.

(** ** Engines after arbitrary [update] calls *)

Lemma PKCS7_valid_inv (b : Z) (s : scheme) :
  valid_block_size b -> PKCS7 b = Ok s -> s = {| scheme_block_size := b |}.
Proof. intros Hv H. rewrite (PKCS7_valid b Hv) in H. congruence. Qed.

(** With a positive block size, text arguments leave an active padder as it
    was, so the engine after the calls is the one after the byte chunks. *)
Lemma pad_after_feed (calls : list pydata) :
  forall (c : PaddingContext.t) (buf : bytes),
    PaddingContext._buffer c = Some buf ->
    0 < PaddingContext.block_size c / 8 ->
    pad_after c calls
    = fst (feed PaddingContext.update c (map Bytes (byte_chunks calls))).
Proof.
  induction calls as [|[d|txt] calls IH]; intros c buf Hbuf Hpos.
  - reflexivity.
  - destruct (pad_update_bytes c buf d Hbuf Hpos) as (out & buf1 & Hupd & _).
    unfold pad_after in *. simpl. rewrite Hupd. simpl.
    rewrite (IH (PaddingContext.set_buffer c (Some buf1)) buf1 eq_refl Hpos).
    destruct (feed PaddingContext.update _ _) as [c' [outs|e]]; reflexivity.
  - unfold pad_after in *. simpl.
    unfold PaddingContext.update at 2. rewrite Hbuf. simpl.
    apply (IH c buf Hbuf Hpos).
Qed.

Lemma unpad_after_feed (calls : list pydata) :
  forall (c : UnpaddingContext.t) (buf : bytes),
    UnpaddingContext._buffer c = Some buf ->
    0 < UnpaddingContext.block_size c / 8 ->
    unpad_after c calls
    = fst (feed UnpaddingContext.update c (map Bytes (byte_chunks calls))).
Proof.
  induction calls as [|[d|txt] calls IH]; intros c buf Hbuf Hpos.
  - reflexivity.
  - destruct (unpad_update_bytes c buf d Hbuf Hpos) as (out & buf1 & Hupd & _).
    unfold unpad_after in *. simpl. rewrite Hupd. simpl.
    rewrite (IH (UnpaddingContext.set_buffer c (Some buf1)) buf1 eq_refl Hpos).
    destruct (feed UnpaddingContext.update _ _) as [c' [outs|e]]; reflexivity.
  - unfold unpad_after in *. simpl.
    unfold UnpaddingContext.update at 2. rewrite Hbuf. simpl.
    apply (IH c buf Hbuf Hpos).
Qed.

(** ** The padder's [finalize] *)

(** C5.  On a padder obtained from a scheme with a valid block size, after
    any sequence of [update] calls, [finalize] computes
    [pad_size = block_size_bytes - len(buffer)], which lies in
    [1 .. block_size_bytes], and returns the buffer followed by [pad_size]
    bytes of value [pad_size]; when the total input length is a multiple of
    the block size, that is one full block of bytes of value
    [block_size_bytes]. *)
Theorem padder_finalize_spec (b : Z) (s : scheme) (calls : list pydata) :
  valid_block_size b -> PKCS7 b = Ok s ->
  let c := pad_after (padder s) calls in
  let bsb := PaddingContext.block_size c / 8 in
  exists (buf : bytes) (pb : byte),
    bsb = b / 8 /\
    PaddingContext._buffer c = Some buf /\
    1 <= bsb - len buf <= bsb /\
    byte_val pb = bsb - len buf /\
    PaddingContext.finalize c
    = (PaddingContext.set_buffer c None,
       Ok (buf ++ repeat pb (Z.to_nat (bsb - len buf)))) /\
    (len (total_input calls) mod bsb = 0 ->
     byte_val pb = bsb /\
     snd (PaddingContext.finalize c) = Ok (repeat pb (Z.to_nat bsb))).
Proof.
  intros Hv Hs c bsb. pose proof (valid_block_bytes b Hv) as Hb.
  pose proof (PKCS7_valid_inv b s Hv Hs) as Es. subst s.
  unfold padder in c. simpl in c.
  assert (Hpos : 0 < PaddingContext.block_size (PaddingContext.init b) / 8)
    by (simpl; lia).
  destruct (pad_feed_spec (byte_chunks calls) (PaddingContext.init b) [] eq_refl Hpos)
    as (outs & buf & Hfeed & Happ & Hdiv & Hlt).
  { change (0 < b / 8). lia. }
  assert (Hc : c = PaddingContext.set_buffer (PaddingContext.init b) (Some buf)).
  { unfold c. rewrite (pad_after_feed calls (PaddingContext.init b) [] eq_refl Hpos), Hfeed. reflexivity. }
  assert (Hbsb : bsb = b / 8) by (unfold bsb; rewrite Hc; reflexivity).
  simpl in Hdiv, Hlt, Happ.
  destruct (pad_finalize_active c buf) as (pb & Hpb & Hfin).
  { rewrite Hc; reflexivity. }
  { fold bsb. lia. }
  fold bsb in Hpb, Hfin. pose proof (len_nonneg buf).
  exists buf, pb.
  split; [assumption|]. split; [rewrite Hc; reflexivity|].
  split; [lia|]. split; [assumption|]. split; [assumption|].
  intros Hmod. rewrite Hbsb in Hmod.
  pose proof (tail_length_mod (b / 8) outs buf ltac:(lia) Hdiv Hlt) as Hlen.
  rewrite Happ in Hlen. fold (total_input calls) in Hlen.
  assert (Hnil : buf = []) by (apply len_nil_inv; lia).
  split; [subst buf; unfold len in Hpb; simpl in Hpb; lia|].
  rewrite Hfin. simpl. rewrite Hnil. simpl.
  replace (bsb - len (@nil byte)) with bsb by (unfold len; simpl; lia).
  reflexivity.
Qed.

Lemma padder_finalize_spec_witness :
  valid_block_size 64 /\ PKCS7 64 = Ok {| scheme_block_size := 64 |} /\
  let c := pad_after (padder {| scheme_block_size := 64 |})
                     [Bytes (repeat "a"%byte 5); Text String.EmptyString;
                      Bytes (repeat "b"%byte 3)] in
  let bsb := PaddingContext.block_size c / 8 in
  exists (buf : bytes) (pb : byte),
    bsb = 64 / 8 /\
    PaddingContext._buffer c = Some buf /\
    1 <= bsb - len buf <= bsb /\
    byte_val pb = bsb - len buf /\
    PaddingContext.finalize c
    = (PaddingContext.set_buffer c None,
       Ok (buf ++ repeat pb (Z.to_nat (bsb - len buf)))) /\
    (len (total_input [Bytes (repeat "a"%byte 5); Text String.EmptyString;
                       Bytes (repeat "b"%byte 3)]) mod bsb = 0 ->
     byte_val pb = bsb /\
     snd (PaddingContext.finalize c) = Ok (repeat pb (Z.to_nat bsb))).
Proof.
  assert (Hv : valid_block_size 64) by (split; [lia | reflexivity]).
  split; [exact Hv | split; [reflexivity|]].
  exact (padder_finalize_spec 64 {| scheme_block_size := 64 |} _ Hv eq_refl).
Defined.

(** ** Chunking invariance *)

(** The state and output of a fed padder depend on the total input only. *)
Lemma pad_feed_total (b : Z) (chunks1 chunks2 : list bytes) :
  valid_block_size b -> concat chunks1 = concat chunks2 ->
  feed PaddingContext.update (PaddingContext.init b) (map Bytes chunks1)
  = feed PaddingContext.update (PaddingContext.init b) (map Bytes chunks2).
Proof.
  intros Hv Heq. pose proof (valid_block_bytes b Hv) as Hb.
  assert (Hpos : 0 < PaddingContext.block_size (PaddingContext.init b) / 8)
    by (simpl; lia).
  assert (H0 : len (@nil byte) < PaddingContext.block_size (PaddingContext.init b) / 8)
    by (change (0 < b / 8); lia).
  destruct (pad_feed_spec chunks1 (PaddingContext.init b) [] eq_refl Hpos H0)
    as (o1 & b1 & -> & Ha1 & Hd1 & Hl1).
  destruct (pad_feed_spec chunks2 (PaddingContext.init b) [] eq_refl Hpos H0)
    as (o2 & b2 & -> & Ha2 & Hd2 & Hl2).
  simpl in *.
  pose proof (tail_length_mod (b / 8) o1 b1 ltac:(lia) Hd1 Hl1) as Hlen1.
  pose proof (tail_length_mod (b / 8) o2 b2 ltac:(lia) Hd2 Hl2) as Hlen2.
  rewrite Ha1 in Hlen1. rewrite Ha2, <- Heq in Hlen2.
  destruct (app_same_length o1 o2 b1 b2) as [-> ->]; [congruence | | reflexivity].
  assert (len (o1 ++ b1) = len (o2 ++ b2)) by congruence.
  rewrite !len_app in *. lia.
Qed.

(** What the unpadder holds back is determined by the total length. *)
Lemma unpad_tail_length (bsb : Z) {A} (outs buf : list A) :
  0 < bsb -> (bsb | len outs) -> len buf < 2 * bsb ->
  (bsb <= len (outs ++ buf) -> bsb <= len buf) ->
  len buf = if len (outs ++ buf) <? bsb then len (outs ++ buf)
            else bsb + len (outs ++ buf) mod bsb.
Proof.
  intros Hpos [j Hj] Hlt Hge. rewrite len_app in *.
  pose proof (len_nonneg outs). pose proof (len_nonneg buf).
  destruct (len outs + len buf <? bsb) eqn:E.
  - apply Z.ltb_lt in E. assert (j = 0) by nia. lia.
  - apply Z.ltb_ge in E. specialize (Hge E).
    rewrite Hj. replace (j * bsb + len buf) with ((len buf - bsb) + (j + 1) * bsb) by ring.
    rewrite Z.mod_add by lia. rewrite Z.mod_small by lia. lia.
Qed.

Lemma unpad_feed_total (b : Z) (chunks1 chunks2 : list bytes) :
  valid_block_size b -> concat chunks1 = concat chunks2 ->
  feed UnpaddingContext.update (UnpaddingContext.init b) (map Bytes chunks1)
  = feed UnpaddingContext.update (UnpaddingContext.init b) (map Bytes chunks2).
Proof.
  intros Hv Heq. pose proof (valid_block_bytes b Hv) as Hb.
  assert (Hpos : 0 < UnpaddingContext.block_size (UnpaddingContext.init b) / 8)
    by (simpl; lia).
  assert (H0 : len (@nil byte)
               < 2 * (UnpaddingContext.block_size (UnpaddingContext.init b) / 8))
    by (change (0 < 2 * (b / 8)); lia).
  destruct (unpad_feed_spec chunks1 (UnpaddingContext.init b) [] eq_refl Hpos H0)
    as (o1 & b1 & -> & Ha1 & Hd1 & Hl1 & Hg1).
  destruct (unpad_feed_spec chunks2 (UnpaddingContext.init b) [] eq_refl Hpos H0)
    as (o2 & b2 & -> & Ha2 & Hd2 & Hl2 & Hg2).
  simpl in *. rewrite <- Ha1 in Hg1. rewrite <- Ha2 in Hg2.
  pose proof (unpad_tail_length (b / 8) o1 b1 ltac:(lia) Hd1 Hl1 Hg1) as Hlen1.
  pose proof (unpad_tail_length (b / 8) o2 b2 ltac:(lia) Hd2 Hl2 Hg2) as Hlen2.
  rewrite Ha1 in Hlen1. rewrite Ha2, <- Heq in Hlen2.
  destruct (app_same_length o1 o2 b1 b2) as [-> ->]; [congruence | | reflexivity].
  assert (len (o1 ++ b1) = len (o2 ++ b2)) by congruence.
  rewrite !len_app in *. lia.
Qed.

(** C6.  For a valid block size, two sequences of [update] calls that
    supply the same bytes leave the engine in the same state with the same
    concatenated output, and [finalize] then gives the same outcome; this
    holds for the padder and for the unpadder.  One call per byte and a
    single call with the whole input are two such sequences. *)
Theorem chunking_invariance (b : Z) (s : scheme) (chunks1 chunks2 : list bytes) :
  valid_block_size b -> PKCS7 b = Ok s ->
  concat chunks1 = concat chunks2 ->
  (feed PaddingContext.update (padder s) (map Bytes chunks1)
   = feed PaddingContext.update (padder s) (map Bytes chunks2) /\
   pad b chunks1 = pad b chunks2) /\
  (feed UnpaddingContext.update (unpadder s) (map Bytes chunks1)
   = feed UnpaddingContext.update (unpadder s) (map Bytes chunks2) /\
   unpad b chunks1 = unpad b chunks2).
Proof.
  intros Hv Hs Heq.
  pose proof (PKCS7_valid_inv b s Hv Hs) as Es. subst s.
  unfold pad, unpad, drive, padder, unpadder. rewrite Hs. simpl.
  rewrite (pad_feed_total b chunks1 chunks2 Hv Heq).
  rewrite (unpad_feed_total b chunks1 chunks2 Hv Heq).
  repeat split.
Qed.

Lemma chunking_invariance_witness :
  valid_block_size 16 /\ PKCS7 16 = Ok {| scheme_block_size := 16 |} /\
  concat (map (fun x => [x]) ["a"; "b"; x02; x02]%byte)
  = concat [["a"; "b"; x02; x02]%byte] /\
  pad 16 (map (fun x => [x]) ["a"; "b"; x02; x02]%byte)
  = pad 16 [["a"; "b"; x02; x02]%byte] /\
  unpad 16 (map (fun x => [x]) ["a"; "b"; x02; x02]%byte)
  = unpad 16 [["a"; "b"; x02; x02]%byte].
Proof.
  assert (Hv : valid_block_size 16) by (split; [lia | reflexivity]).
  split; [exact Hv | split; [reflexivity | split; [reflexivity|]]].
  destruct (chunking_invariance 16 {| scheme_block_size := 16 |}
              (map (fun x => [x]) ["a"; "b"; x02; x02]%byte)
              [["a"; "b"; x02; x02]%byte] Hv eq_refl eq_refl)
    as [[_ Hp] [_ Hu]].
  split; assumption.
Defined.

(** ** The unpadder's [finalize]: the empty buffer *)

Lemma unpad_finalize_empty (c : UnpaddingContext.t) :
  UnpaddingContext._buffer c = Some [] ->
  UnpaddingContext.finalize c = (c, Raise InvalidPadding).
Proof.
  intros Hbuf. unfold UnpaddingContext.finalize. now rewrite Hbuf.
Qed.

(** C3 as stated fails.  An input of one byte, shorter than the block of
    eight, stays in the buffer; it reads as a pad of length one and [finalize] returns the empty
    sequence instead of failing. *)
Lemma short_input_accepted :
  PKCS7 64 = Ok {| scheme_block_size := 64 |} /\
  total_input [Bytes [x01]] = [x01] /\
  len (total_input [Bytes [x01]]) < 64 / 8 /\
  UnpaddingContext._buffer
    (unpad_after (unpadder {| scheme_block_size := 64 |}) [Bytes [x01]])
  = Some [x01] /\
  snd (UnpaddingContext.finalize
         (unpad_after (unpadder {| scheme_block_size := 64 |}) [Bytes [x01]]))
  = Ok [] /\
  snd (UnpaddingContext.finalize
         (unpad_after (unpadder {| scheme_block_size := 64 |}) [Bytes [x01]]))
  <> Raise InvalidPadding.
Proof.
  repeat split; try reflexivity; discriminate.
Qed.

(** C3, amended.  For a valid block size and any sequence of [update]
    calls on an unpadder, the retained buffer is empty exactly when the
    total input is empty, and in that case [finalize] fails with
    InvalidPadding, leaving the engine active. *)
Theorem unpad_empty_input_rejected (b : Z) (s : scheme) (calls : list pydata) :
  valid_block_size b -> PKCS7 b = Ok s ->
  let c := unpad_after (unpadder s) calls in
  (UnpaddingContext._buffer c = Some [] <-> total_input calls = []) /\
  (total_input calls = [] ->
   UnpaddingContext.finalize c = (c, Raise InvalidPadding)).
Proof.
  intros Hv Hs c. pose proof (valid_block_bytes b Hv) as Hb.
  pose proof (PKCS7_valid_inv b s Hv Hs) as Es. subst s.
  unfold unpadder in c. simpl in c.
  assert (Hpos : 0 < UnpaddingContext.block_size (UnpaddingContext.init b) / 8)
    by (simpl; lia).
  assert (H0 : len (@nil byte)
               < 2 * (UnpaddingContext.block_size (UnpaddingContext.init b) / 8))
    by (change (0 < 2 * (b / 8)); lia).
  destruct (unpad_feed_spec (byte_chunks calls) (UnpaddingContext.init b) []
              eq_refl Hpos H0)
    as (outs & buf & Hfeed & Happ & Hdiv & Hlt & Hge).
  assert (Hc : c = UnpaddingContext.set_buffer (UnpaddingContext.init b) (Some buf)).
  { unfold c.
    rewrite (unpad_after_feed calls (UnpaddingContext.init b) [] eq_refl Hpos), Hfeed.
    reflexivity. }
  simpl in Happ, Hdiv, Hlt, Hge. fold (total_input calls) in Happ, Hge.
  assert (Hiff : UnpaddingContext._buffer c = Some [] <-> total_input calls = []).
  { rewrite Hc. simpl. split.
    - intros Hnil. injection Hnil as Hnil. subst buf.
      rewrite app_nil_r in Happ. subst outs.
      destruct (Z_lt_ge_dec (len (total_input calls)) (b / 8)) as [Hsmall | Hbig].
      + destruct Hdiv as [j Hj]. pose proof (len_nonneg (total_input calls)).
        assert (j = 0) by nia. apply len_nil_inv. lia.
      + apply Z.ge_le, Hge in Hbig. unfold len in Hbig; simpl in Hbig. lia.
    - intros Hnil. rewrite Hnil in Happ.
      apply app_eq_nil in Happ. destruct Happ as [_ ->]. reflexivity. }
  split; [exact Hiff|].
  intros Hnil. apply unpad_finalize_empty, Hiff, Hnil.
Qed.

Lemma unpad_empty_input_rejected_witness :
  valid_block_size 64 /\ PKCS7 64 = Ok {| scheme_block_size := 64 |} /\
  total_input [Bytes []; Text String.EmptyString] = [] /\
  UnpaddingContext.finalize
    (unpad_after (unpadder {| scheme_block_size := 64 |})
                 [Bytes []; Text String.EmptyString])
  = (unpad_after (unpadder {| scheme_block_size := 64 |})
                 [Bytes []; Text String.EmptyString],
     Raise InvalidPadding).
Proof.
  assert (Hv : valid_block_size 64) by (split; [lia | reflexivity]).
  split; [exact Hv | split; [reflexivity | split; [reflexivity|]]].
  exact (proj2 (unpad_empty_input_rejected 64 {| scheme_block_size := 64 |}
                  [Bytes []; Text String.EmptyString] Hv eq_refl) eq_refl).
Defined.

(** ** The unpadder's [finalize]: validation and stripping *)

(** C4 as stated fails.  The literal contract is violated on two buffers an
    unpadder for 64-bit blocks can hold: three bytes of value five (shorter than the announced pad:
    everything is removed), and eight zero bytes (a pad size of zero: the
    whole buffer is checked and removed, not its last zero bytes). *)
Lemma finalize_literal_contract_fails :
  UnpaddingContext.finalize
    {| UnpaddingContext.block_size := 64;
       UnpaddingContext._buffer := Some [x05; x05; x05] |}
  = ({| UnpaddingContext.block_size := 64; UnpaddingContext._buffer := None |},
     Ok []) /\
  ~ finalize_literal_contract
      {| UnpaddingContext.block_size := 64;
         UnpaddingContext._buffer := Some [x05; x05; x05] |}
      [x05; x05; x05] /\
  UnpaddingContext.finalize
    {| UnpaddingContext.block_size := 64;
       UnpaddingContext._buffer := Some (repeat x00 8) |}
  = ({| UnpaddingContext.block_size := 64; UnpaddingContext._buffer := None |},
     Ok []) /\
  ~ finalize_literal_contract
      {| UnpaddingContext.block_size := 64;
         UnpaddingContext._buffer := Some (repeat x00 8) |}
      (repeat x00 8).
Proof.
  split; [reflexivity|]. split; [|split; [reflexivity|]].
  - intros [[H _] | (pre & win & (Hsplit & Hlen & _) & _ & _)].
    + discriminate H.
    + apply (f_equal (@length byte)) in Hsplit. rewrite length_app in Hsplit.
      simpl in Hsplit. unfold len in Hlen. change (byte_val (last [x05; x05; x05] x00)) with 5 in Hlen.
      lia.
  - intros [[H _] | (pre & win & (Hsplit & Hlen & _) & _ & Hfin)].
    + discriminate H.
    + change (byte_val (last (repeat x00 8) x00)) with 0 in Hlen.
      apply len_nil_inv in Hlen. subst win. rewrite app_nil_r in Hsplit.
      subst pre. discriminate Hfin.
Qed.

(** C4, amended.  On an active unpadder with a non-empty buffer, [finalize]
    reads [pad_size] from the last byte and fails with InvalidPadding when
    it exceeds [block_size_bytes].  When [pad_size >= 1], the window it
    checks is the last [min(pad_size, len(buffer))] bytes: it fails with
    InvalidPadding when they are not all equal to [pad_size], and otherwise
    returns the buffer without exactly those bytes and becomes finalized. *)
Theorem unpad_finalize_spec (c : UnpaddingContext.t) (buf pre win : bytes) :
  UnpaddingContext._buffer c = Some buf -> buf <> [] ->
  let pad_size := byte_val (last buf x00) in
  let bsb := UnpaddingContext.block_size c / 8 in
  (bsb < pad_size -> UnpaddingContext.finalize c = (c, Raise InvalidPadding)) /\
  (1 <= pad_size -> buf = pre ++ win -> len win = Z.min pad_size (len buf) ->
   (~ Forall (fun x => byte_val x = pad_size) win ->
    UnpaddingContext.finalize c = (c, Raise InvalidPadding)) /\
   (pad_size <= bsb -> Forall (fun x => byte_val x = pad_size) win ->
    UnpaddingContext.finalize c = (UnpaddingContext.set_buffer c None, Ok pre))).
Proof.
  intros Hbuf Hne pad_size bsb. split.
  - intros Hgt. now apply (unpad_finalize_oversize c buf).
  - intros Hp Hsplit Hwin.
    pose proof (unpad_finalize_cases c buf pre win Hbuf Hne Hsplit Hp Hwin) as Hfin.
    fold pad_size in Hfin. fold bsb in Hfin.
    destruct (forallb (fun x => byte_val x =? pad_size) win) eqn:Hall.
    + rewrite forallb_forall in Hall. split.
      * intros Hno. exfalso. apply Hno, Forall_forall.
        intros x Hx. apply Z.eqb_eq. auto.
      * intros Hle _.
        assert (H1 : (pad_size >? bsb) = false)
          by (rewrite Z.gtb_ltb; apply Z.ltb_ge; lia).
        rewrite H1 in Hfin. exact Hfin.
    + rewrite orb_true_r in Hfin. split; [intros _; exact Hfin|].
      intros _ Hok. exfalso.
      assert (forallb (fun x => byte_val x =? pad_size) win = true); [|congruence].
      rewrite Forall_forall in Hok. apply forallb_forall.
      intros x Hx. apply Z.eqb_eq. auto.
Qed.

Lemma unpad_finalize_spec_witness :
  UnpaddingContext.finalize
    {| UnpaddingContext.block_size := 64;
       UnpaddingContext._buffer := Some ["a"; x02; x02]%byte |}
  = ({| UnpaddingContext.block_size := 64; UnpaddingContext._buffer := None |},
     Ok ["a"%byte]).
Proof.
  refine (proj2 (proj2 (unpad_finalize_spec
                   {| UnpaddingContext.block_size := 64;
                      UnpaddingContext._buffer := Some ["a"; x02; x02]%byte |}
                   ["a"; x02; x02]%byte ["a"%byte] [x02; x02] eq_refl _)
                 _ eq_refl eq_refl) _ _).
  - discriminate.
  - vm_compute; discriminate.
  - vm_compute; discriminate.
  - repeat constructor.
Defined.

(** C10.  On an active unpadder (block size not negative) whose non-empty
    buffer ends in the byte 0, [finalize] succeeds if and only if every
    byte of the buffer is 0, and then it returns the empty sequence. *)
Theorem unpad_finalize_zero_pad (c : UnpaddingContext.t) (buf : bytes) :
  0 <= UnpaddingContext.block_size c ->
  UnpaddingContext._buffer c = Some buf -> buf <> [] ->
  last buf x01 = x00 ->
  ((exists r, snd (UnpaddingContext.finalize c) = Ok r)
   <-> Forall (fun x => x = x00) buf) /\
  (forall r, snd (UnpaddingContext.finalize c) = Ok r -> r = []) /\
  (~ Forall (fun x => x = x00) buf ->
   UnpaddingContext.finalize c = (c, Raise InvalidPadding)).
Proof.
  intros Hbs Hbuf Hne Hlast.
  assert (Hfin : UnpaddingContext.finalize c
                 = if UnpaddingContext.mismatch_of buf 0 =? 0
                   then (UnpaddingContext.set_buffer c None, Ok [])
                   else (c, Raise InvalidPadding)).
  { unfold UnpaddingContext.finalize.
    rewrite Hbuf, (indexbytes_last_spec buf x01 Hne), Hlast.
    change (byte_val x00) with 0.
    assert (H1 : (0 >? UnpaddingContext.block_size c / 8) = false).
    { rewrite Z.gtb_ltb. apply Z.ltb_ge. apply Z.div_pos; lia. }
    rewrite H1. change (- 0) with 0.
    unfold slice_from, slice_to, slice_bound. simpl (0 <? 0).
    rewrite Z.min_l by apply len_nonneg. simpl.
    destruct (UnpaddingContext.mismatch_of buf 0 =? 0); reflexivity. }
  assert (Hzero : UnpaddingContext.mismatch_of buf 0 = 0
                  <-> Forall (fun x => x = x00) buf).
  { rewrite mismatch_of_zero, !Forall_forall. split; intros H x Hx.
    - apply byte_val_inj. rewrite (H x Hx). reflexivity.
    - rewrite (H x Hx). reflexivity. }
  rewrite Hfin.
  destruct (UnpaddingContext.mismatch_of buf 0 =? 0) eqn:Hm; simpl.
  - apply Z.eqb_eq in Hm. split; [|split].
    + split; [intros _; now apply Hzero | intros _; now exists []].
    + intros r Hr. congruence.
    + intros Hno. exfalso. apply Hno, Hzero, Hm.
  - apply Z.eqb_neq in Hm. split; [|split].
    + split; [intros [r Hr]; discriminate | intros Hall; exfalso; now apply Hm, Hzero].
    + intros r Hr. discriminate.
    + reflexivity.
Qed.

Lemma unpad_finalize_zero_pad_witness :
  (exists r,
      snd (UnpaddingContext.finalize
             {| UnpaddingContext.block_size := 16;
                UnpaddingContext._buffer := Some [x00; x00] |}) = Ok r) /\
  UnpaddingContext.finalize
    {| UnpaddingContext.block_size := 16;
       UnpaddingContext._buffer := Some [x07; x00] |}
  = ({| UnpaddingContext.block_size := 16;
        UnpaddingContext._buffer := Some [x07; x00] |}, Raise InvalidPadding).
Proof.
  split.
  - refine (proj2 (proj1 (unpad_finalize_zero_pad
                            {| UnpaddingContext.block_size := 16;
                               UnpaddingContext._buffer := Some [x00; x00] |}
                            [x00; x00] _ eq_refl _ eq_refl)) _).
    + simpl; lia.
    + discriminate.
    + repeat constructor.
  - refine (proj2 (proj2 (unpad_finalize_zero_pad
                            {| UnpaddingContext.block_size := 16;
                               UnpaddingContext._buffer := Some [x07; x00] |}
                            [x07; x00] _ eq_refl _ eq_refl)) _).
    + simpl; lia.
    + discriminate.
    + intros H. inversion H; discriminate.
Defined.

(** ** After [finalize] *)

Lemma pad_finalize_ok (c c' : PaddingContext.t) (r : bytes) :
  PaddingContext.finalize c = (c', Ok r) -> PaddingContext._buffer c' = None.
Proof.
  unfold PaddingContext.finalize.
  destruct (PaddingContext._buffer c) as [buf|]; [|discriminate].
  destruct (int2byte _); [|discriminate].
  intros H; injection H as <- _. reflexivity.
Qed.

Lemma unpad_finalize_ok (c c' : UnpaddingContext.t) (r : bytes) :
  UnpaddingContext.finalize c = (c', Ok r) -> UnpaddingContext._buffer c' = None.
Proof.
  unfold UnpaddingContext.finalize.
  destruct (UnpaddingContext._buffer c) as [buf|]; [|discriminate].
  destruct (indexbytes_last buf) as [p|]; [|discriminate].
  destruct (p >? _); [discriminate|].
  destruct (negb _); [discriminate|].
  intros H; injection H as <- _. reflexivity.
Qed.

Lemma pad_finalized_call (c : PaddingContext.t) (k : call) :
  PaddingContext._buffer c = None -> pad_call c k = (c, Raise UseAfterFinalize).
Proof.
  intros H. destruct k as [d|]; simpl;
    unfold PaddingContext.update, PaddingContext.finalize; now rewrite H.
Qed.

Lemma unpad_finalized_call (c : UnpaddingContext.t) (k : call) :
  UnpaddingContext._buffer c = None -> unpad_call c k = (c, Raise UseAfterFinalize).
Proof.
  intros H. destruct k as [d|]; simpl;
    unfold UnpaddingContext.update, UnpaddingContext.finalize; now rewrite H.
Qed.

Lemma pad_finalized_outcomes (ks : list call) (c : PaddingContext.t) :
  PaddingContext._buffer c = None ->
  Forall (fun o => o = Raise UseAfterFinalize) (outcomes pad_call c ks).
Proof.
  intros H. induction ks as [|k ks IH]; simpl; [constructor|].
  rewrite (pad_finalized_call c k H). simpl. constructor; [reflexivity | exact IH].
Qed.

Lemma unpad_finalized_outcomes (ks : list call) (c : UnpaddingContext.t) :
  UnpaddingContext._buffer c = None ->
  Forall (fun o => o = Raise UseAfterFinalize) (outcomes unpad_call c ks).
Proof.
  intros H. induction ks as [|k ks IH]; simpl; [constructor|].
  rewrite (unpad_finalized_call c k H). simpl. constructor; [reflexivity | exact IH].
Qed.

(** C7.  Once [finalize] has returned normally on a padder or on an
    unpadder, every later call, [update] with any argument or [finalize],
    raises UseAfterFinalize. *)
Theorem use_after_finalize
        (pc pc' : PaddingContext.t) (uc uc' : UnpaddingContext.t)
        (r r' : bytes) (ks : list call) :
  (PaddingContext.finalize pc = (pc', Ok r) ->
   Forall (fun o => o = Raise UseAfterFinalize) (outcomes pad_call pc' ks)) /\
  (UnpaddingContext.finalize uc = (uc', Ok r') ->
   Forall (fun o => o = Raise UseAfterFinalize) (outcomes unpad_call uc' ks)).
Proof.
  split; intros H.
  - apply pad_finalized_outcomes. exact (pad_finalize_ok pc pc' r H).
  - apply unpad_finalized_outcomes. exact (unpad_finalize_ok uc uc' r' H).
Qed.

Lemma use_after_finalize_witness :
  Forall (fun o => o = Raise UseAfterFinalize)
         (outcomes pad_call
                   {| PaddingContext.block_size := 64;
                      PaddingContext._buffer := None |}
                   [Update (Bytes ["a"%byte]); Update (Text String.EmptyString);
                    Finalize]) /\
  Forall (fun o => o = Raise UseAfterFinalize)
         (outcomes unpad_call
                   {| UnpaddingContext.block_size := 64;
                      UnpaddingContext._buffer := None |}
                   [Update (Bytes ["a"%byte]); Update (Text String.EmptyString);
                    Finalize]).
Proof.
  destruct (use_after_finalize
              (PaddingContext.init 64)
              {| PaddingContext.block_size := 64;
                 PaddingContext._buffer := None |}
              {| UnpaddingContext.block_size := 64;
                 UnpaddingContext._buffer := Some (repeat x08 8) |}
              {| UnpaddingContext.block_size := 64;
                 UnpaddingContext._buffer := None |}
              (repeat x08 8) []
              [Update (Bytes ["a"%byte]); Update (Text String.EmptyString);
               Finalize])
    as [Hp Hu].
  split; [apply Hp | apply Hu]; reflexivity.
Defined.

(** ** Block size zero *)

Lemma pad_update_zero (c : PaddingContext.t) (buf d : bytes) :
  PaddingContext._buffer c = Some buf -> PaddingContext.block_size c / 8 = 0 ->
  PaddingContext.update c (Bytes d)
  = (PaddingContext.set_buffer c (Some (buf ++ d)), Raise ZeroDivisionError).
Proof.
  intros Hbuf Hz. unfold PaddingContext.update. rewrite Hbuf. simpl.
  now rewrite Hz.
Qed.

Lemma unpad_update_zero (c : UnpaddingContext.t) (buf d : bytes) :
  UnpaddingContext._buffer c = Some buf -> UnpaddingContext.block_size c / 8 = 0 ->
  UnpaddingContext.update c (Bytes d)
  = (UnpaddingContext.set_buffer c (Some (buf ++ d)), Raise ZeroDivisionError).
Proof.
  intros Hbuf Hz. unfold UnpaddingContext.update. rewrite Hbuf. simpl.
  now rewrite Hz.
Qed.

Lemma pad_zero_outcomes (chunks : list bytes) :
  forall (c : PaddingContext.t) (buf : bytes),
    PaddingContext._buffer c = Some buf -> PaddingContext.block_size c / 8 = 0 ->
    Forall (fun o => o = Raise ZeroDivisionError)
           (outcomes pad_call c (map (fun d => Update (Bytes d)) chunks)).
Proof.
  induction chunks as [|d ds IH]; intros c buf Hbuf Hz; simpl; [constructor|].
  rewrite (pad_update_zero c buf d Hbuf Hz). simpl.
  constructor; [reflexivity|].
  apply (IH (PaddingContext.set_buffer c (Some (buf ++ d))) (buf ++ d) eq_refl Hz).
Qed.

Lemma unpad_zero_outcomes (chunks : list bytes) :
  forall (c : UnpaddingContext.t) (buf : bytes),
    UnpaddingContext._buffer c = Some buf -> UnpaddingContext.block_size c / 8 = 0 ->
    Forall (fun o => o = Raise ZeroDivisionError)
           (outcomes unpad_call c (map (fun d => Update (Bytes d)) chunks)).
Proof.
  induction chunks as [|d ds IH]; intros c buf Hbuf Hz; simpl; [constructor|].
  rewrite (unpad_update_zero c buf d Hbuf Hz). simpl.
  constructor; [reflexivity|].
  apply (IH (UnpaddingContext.set_buffer c (Some (buf ++ d))) (buf ++ d) eq_refl Hz).
Qed.

(** C9.  [PKCS7(0)] is accepted, and on the padder and on the unpadder it
    hands out every [update] call with bytes runs into the division by
    [block_size // 8 = 0]: the first call, and every call after it. *)
Theorem zero_block_size_division (d : bytes) (chunks : list bytes) :
  PKCS7 0 = Ok {| scheme_block_size := 0 |} /\
  snd (PaddingContext.update (padder {| scheme_block_size := 0 |}) (Bytes d))
  = Raise ZeroDivisionError /\
  snd (UnpaddingContext.update (unpadder {| scheme_block_size := 0 |}) (Bytes d))
  = Raise ZeroDivisionError /\
  Forall (fun o => o = Raise ZeroDivisionError)
         (outcomes pad_call (padder {| scheme_block_size := 0 |})
                   (map (fun d => Update (Bytes d)) chunks)) /\
  Forall (fun o => o = Raise ZeroDivisionError)
         (outcomes unpad_call (unpadder {| scheme_block_size := 0 |})
                   (map (fun d => Update (Bytes d)) chunks)).
Proof.
  split; [reflexivity|]. split; [reflexivity|]. split; [reflexivity|]. split.
  - apply (pad_zero_outcomes chunks (PaddingContext.init 0) [] eq_refl).
    reflexivity.
  - apply (unpad_zero_outcomes chunks (UnpaddingContext.init 0) [] eq_refl).
    reflexivity.
Qed.

(** ** Tampering with the pad *)

Lemma lxor_byte_range (a k : Z) :
  0 <= a < 256 -> 0 <= k < 8 -> 0 <= Z.lxor a (2 ^ k) < 256.
Proof.
  intros Ha Hk.
  assert (Hp : 0 < 2 ^ k < 256).
  { split; [apply Z.pow_pos_nonneg; lia|].
    change 256 with (2 ^ 8). apply Z.pow_lt_mono_r; lia. }
  assert (Hnn : 0 <= Z.lxor a (2 ^ k)) by (apply Z.lxor_nonneg; lia).
  split; [assumption|].
  destruct (Z.eq_dec (Z.lxor a (2 ^ k)) 0) as [-> | Hnz]; [lia|].
  change 256 with (2 ^ 8). apply Z.log2_lt_pow2; [lia|].
  eapply Z.le_lt_trans; [apply Z.log2_lxor; lia|].
  apply Z.max_lub_lt.
  - destruct (Z.eq_dec a 0) as [-> | Ha0]; [simpl; lia|].
    apply Z.log2_lt_pow2; [lia | simpl; lia].
  - rewrite Z.log2_pow2; lia.
Qed.

Lemma byte_val_flip (k : Z) (x : byte) :
  0 <= k < 8 -> byte_val (flip_byte k x) = Z.lxor (byte_val x) (2 ^ k).
Proof.
  intros Hk. unfold flip_byte. rewrite byte_val_of_Z.
  apply Z.mod_small, lxor_byte_range; [apply byte_val_range | assumption].
Qed.

Lemma lxor_pow2_changes (a k : Z) : 0 <= k -> Z.lxor a (2 ^ k) <> a.
Proof.
  intros Hk H.
  assert (Hz : Z.lxor a (Z.lxor a (2 ^ k)) = 0) by (rewrite H; apply Z.lxor_nilpotent).
  rewrite <- Z.lxor_assoc, Z.lxor_nilpotent, Z.lxor_0_l in Hz.
  pose proof (Z.pow_pos_nonneg 2 k ltac:(lia) Hk). lia.
Qed.

Lemma flip_bit_length (i : nat) (k : Z) (s : bytes) :
  length (flip_bit i k s) = length s.
Proof.
  revert i; induction s as [|x s IH]; intros [|i]; simpl; auto.
Qed.

Lemma flip_bit_app_r (m s : bytes) (i : nat) (k : Z) :
  (length m <= i)%nat ->
  flip_bit i k (m ++ s) = m ++ flip_bit (i - length m) k s.
Proof.
  revert i; induction m as [|x m IH]; intros i Hi; simpl in *.
  - now rewrite Nat.sub_0_r.
  - destruct i as [|i]; [lia|]. simpl. rewrite IH by lia. reflexivity.
Qed.

Lemma flip_bit_repeat (x : byte) (n i : nat) (k : Z) :
  (i < n)%nat ->
  flip_bit i k (repeat x n)
  = repeat x i ++ flip_byte k x :: repeat x (n - 1 - i).
Proof.
  revert i; induction n as [|n IH]; intros i Hi; [lia|].
  destruct i as [|i].
  - replace (S n - 1 - 0)%nat with n by lia. reflexivity.
  - replace (S n - 1 - S i)%nat with (n - 1 - i)%nat by lia.
    simpl. rewrite IH by lia. reflexivity.
Qed.

Lemma in_skipn_last_two {A} (front : list A) (a z : A) (n : nat) :
  (n + 2 <= length (front ++ [a; z]))%nat ->
  In a (skipn n (front ++ [a; z])).
Proof.
  intros Hn. rewrite length_app in Hn. simpl in Hn.
  rewrite skipn_app. replace (n - length front)%nat with O by lia.
  apply in_or_app. right. left. reflexivity.
Qed.

(** [finalize] on a buffer that ends with a pad of [n] bytes of value [n] in
    which one byte other than the last has a flipped bit. *)
Lemma unpad_finalize_flipped_inner
      (c : UnpaddingContext.t) (t : bytes) (pb : byte) (n i : nat) (k : Z) :
  0 <= k < 8 -> byte_val pb = Z.of_nat n -> (i + 1 < n)%nat ->
  UnpaddingContext._buffer c = Some (t ++ flip_bit i k (repeat pb n)) ->
  UnpaddingContext.finalize c = (c, Raise InvalidPadding).
Proof.
  intros Hk Hpb Hi Hbuf.
  set (buf := t ++ flip_bit i k (repeat pb n)) in *.
  assert (Hfp : flip_bit i k (repeat pb n)
                = repeat pb i ++ flip_byte k pb :: repeat pb (n - 1 - i))
    by (apply flip_bit_repeat; lia).
  assert (Hlast : last buf x00 = pb).
  { unfold buf. rewrite Hfp.
    replace (t ++ repeat pb i ++ flip_byte k pb :: repeat pb (n - 1 - i))
      with ((t ++ repeat pb i ++ [flip_byte k pb]) ++ repeat pb (n - 1 - i))
      by (rewrite <- !app_assoc; reflexivity).
    apply last_app_repeat. lia. }
  assert (Hne : buf <> []).
  { unfold buf. rewrite Hfp. intros H. apply app_eq_nil in H.
    destruct H as [_ H]. apply app_eq_nil in H. destruct H as [_ H]. discriminate. }
  apply (unpad_finalize_mismatch c buf (flip_byte k pb) Hbuf Hne).
  - rewrite Hlast, Hpb.
    destruct (finalize_slices buf t (flip_bit i k (repeat pb n)) (Z.of_nat n))
      as [_ ->]; [lia | reflexivity | |].
    + unfold buf. rewrite len_app. unfold len.
      rewrite flip_bit_length, repeat_length. lia.
    + rewrite Hfp. apply in_or_app. right. left. reflexivity.
  - rewrite Hlast, byte_val_flip by assumption.
    apply lxor_pow2_changes. lia.
Qed.

(** The same when the flipped bit is in the last byte, whose new value [v]
    either exceeds the block, or differs from 1 while the pad has at least
    two bytes. *)
Lemma unpad_finalize_flipped_last
      (c : UnpaddingContext.t) (t : bytes) (pb : byte) (n : nat) (k : Z) :
  0 <= k < 8 -> byte_val pb = Z.of_nat n -> (1 <= n)%nat ->
  UnpaddingContext._buffer c = Some (t ++ flip_bit (n - 1) k (repeat pb n)) ->
  (UnpaddingContext.block_size c / 8 < Z.lxor (Z.of_nat n) (2 ^ k) \/
   ((2 <= n)%nat /\ Z.lxor (Z.of_nat n) (2 ^ k) <> 1)) ->
  UnpaddingContext.finalize c = (c, Raise InvalidPadding).
Proof.
  intros Hk Hpb Hn Hbuf Hcond.
  set (buf := t ++ flip_bit (n - 1) k (repeat pb n)) in *.
  set (v := Z.lxor (Z.of_nat n) (2 ^ k)) in *.
  assert (Hfp : flip_bit (n - 1) k (repeat pb n)
                = repeat pb (n - 1) ++ [flip_byte k pb]).
  { rewrite flip_bit_repeat by lia.
    replace (n - 1 - (n - 1))%nat with O by lia. reflexivity. }
  assert (Hshape : buf = (t ++ repeat pb (n - 1)) ++ [flip_byte k pb])
    by (unfold buf; rewrite Hfp, app_assoc; reflexivity).
  assert (Hlast : last buf x00 = flip_byte k pb)
    by (rewrite Hshape; apply last_last).
  assert (Hv : byte_val (last buf x00) = v)
    by (rewrite Hlast, byte_val_flip, Hpb by assumption; reflexivity).
  assert (Hne : buf <> []).
  { rewrite Hshape. intros H. apply app_eq_nil in H. destruct H; discriminate. }
  destruct (Z_lt_ge_dec (UnpaddingContext.block_size c / 8) v) as [Hbig | Hsmall].
  { apply (unpad_finalize_oversize c buf Hbuf Hne). rewrite Hv. assumption. }
  destruct Hcond as [Hbig | [Hn2 Hv1]]; [lia|].
  (* the window reaches the byte before the last, which still says [n] *)
  assert (Hshape2 : buf = (t ++ repeat pb (n - 2)) ++ [pb; flip_byte k pb]).
  { rewrite Hshape. replace (n - 1)%nat with (S (n - 2)) by lia.
    simpl repeat. rewrite repeat_cons, <- !app_assoc. reflexivity. }
  apply (unpad_finalize_mismatch c buf pb Hbuf Hne).
  - rewrite Hv. unfold slice_from.
    assert (Hvnn : 0 <= v).
    { unfold v. apply Z.lxor_nonneg. split; intros _; [|lia].
      apply Z.pow_nonneg. lia. }
    assert (Hlen : 2 <= len buf).
    { rewrite Hshape2, len_app. pose proof (len_nonneg (t ++ repeat pb (n - 2))).
      unfold len at 2. simpl. lia. }
    assert (Hb : 0 <= slice_bound (- v) (len buf) <= len buf - 2).
    { unfold slice_bound. destruct (- v <? 0) eqn:E.
      - apply Z.ltb_lt in E. lia.
      - apply Z.ltb_ge in E. lia. }
    rewrite Hshape2 at 2. apply in_skipn_last_two.
    rewrite <- Hshape2. unfold len in *. lia.
  - rewrite Hv, Hpb. unfold v. intros H. symmetry in H.
    apply (lxor_pow2_changes (Z.of_nat n) k) in H; [assumption | lia].
Qed.

(** C2 as stated fails.  A flipped bit that goes unnoticed: the message [hello] is padded for
    64-bit blocks with three bytes of value 3; flipping bit 1 of the last
    byte turns it into 1, a well-formed pad of length one, and the unpadder
    returns [hello] followed by two bytes of value 3. *)
Lemma tamper_undetected :
  pad 64 [["h"; "e"; "l"; "l"; "o"]%byte]
  = Ok ["h"; "e"; "l"; "l"; "o"; x03; x03; x03]%byte /\
  pad_length 64 ["h"; "e"; "l"; "l"; "o"]%byte = 3 /\
  flip_bit 7 1 ["h"; "e"; "l"; "l"; "o"; x03; x03; x03]%byte
  = ["h"; "e"; "l"; "l"; "o"; x03; x03; x01]%byte /\
  unpad 64 [flip_bit 7 1 ["h"; "e"; "l"; "l"; "o"; x03; x03; x03]%byte]
  = Ok ["h"; "e"; "l"; "l"; "o"; x03; x03]%byte /\
  unpad 64 [flip_bit 7 1 ["h"; "e"; "l"; "l"; "o"; x03; x03; x03]%byte]
  <> Raise InvalidPadding.
Proof.
  repeat split; try reflexivity. discriminate.
Qed.

(** C2, amended.  Let [p] be the padded encoding of a message for a valid
    block size, ending in [pad_size] bytes of value [pad_size], and flip one
    bit in one of these bytes.  The unpadder, fed the altered sequence in
    any number of [update] calls, fails in [finalize] with InvalidPadding
    whenever the flipped byte is not the last one, or the new value of the
    last byte exceeds [block_size_bytes], or [pad_size >= 2] and the new
    value of the last byte is not 1. *)
Theorem tamper_detected
        (b : Z) (chunks chunks' : list bytes) (p : bytes) (i : nat) (k : Z) :
  valid_block_size b ->
  pad b chunks = Ok p ->
  0 <= k < 8 ->
  len p - pad_length b (concat chunks) <= Z.of_nat i < len p ->
  concat chunks' = flip_bit i k p ->
  (Z.of_nat i < len p - 1 \/
   b / 8 < Z.lxor (pad_length b (concat chunks)) (2 ^ k) \/
   (2 <= pad_length b (concat chunks) /\
    Z.lxor (pad_length b (concat chunks)) (2 ^ k) <> 1)) ->
  unpad b chunks' = Raise InvalidPadding.
Proof.
  intros Hv Hpad Hk Hi Hcat Hcond. pose proof (valid_block_bytes b Hv) as Hb.
  destruct (pad_spec b chunks Hv) as (pb & Hpb & Hpad').
  rewrite Hpad' in Hpad. injection Hpad as Hp. clear Hpad'.
  set (m := concat chunks) in *.
  pose proof (pad_length_range b m Hv) as Hrange.
  destruct (padded_length b m Hv) as [Hdiv Hge].
  set (P := pad_length b m) in *. set (n := Z.to_nat P) in *.
  assert (HnP : Z.of_nat n = P) by (unfold n; lia).
  assert (Hlenp : len p = len m + P)
    by (rewrite <- Hp, len_app; unfold len; rewrite repeat_length; lia).
  rewrite Hlenp in Hi, Hcond.
  assert (Hflip : flip_bit i k p = m ++ flip_bit (i - length m) k (repeat pb n)).
  { rewrite <- Hp. apply flip_bit_app_r. unfold len in Hi. lia. }
  set (i' := (i - length m)%nat) in *.
  assert (Hi' : (i' < n)%nat) by (unfold i', len in *; lia).
  rewrite Hflip in Hcat.
  assert (Hlen' : len (concat chunks') = len m + P).
  { rewrite Hcat, len_app. unfold len.
    rewrite flip_bit_length, repeat_length. lia. }
  destruct (unpad_feed_blocks b chunks' Hv) as (outs & buf & Hfeed & Happ & Hbuf);
    try (rewrite Hlen'; assumption).
  rewrite Hcat in Happ.
  destruct (app_suffix_split outs buf m _ Happ) as (t & Ht & _).
  { unfold len at 1. rewrite flip_bit_length, repeat_length. lia. }
  assert (Hfin : UnpaddingContext.finalize
                   (UnpaddingContext.set_buffer (UnpaddingContext.init b) (Some buf))
                 = (UnpaddingContext.set_buffer (UnpaddingContext.init b) (Some buf),
                    Raise InvalidPadding)).
  { destruct (Nat.lt_ge_cases (i' + 1) n) as [Hin | Hlast].
    - apply (unpad_finalize_flipped_inner _ t pb n i' k); try assumption.
      + lia.
      + simpl. rewrite Ht. reflexivity.
    - assert (Ei : i' = (n - 1)%nat) by lia.
      apply (unpad_finalize_flipped_last _ t pb n k); try assumption.
      + lia.
      + lia.
      + simpl. rewrite Ht, Ei. reflexivity.
      + rewrite HnP. simpl.
        destruct Hcond as [Hc | [Hc | [Hc1 Hc2]]].
        * unfold i', len in *. lia.
        * left; assumption.
        * right; split; [lia | assumption]. }
  unfold unpad. rewrite (PKCS7_valid b Hv). unfold drive, unpadder; simpl.
  rewrite Hfeed, Hfin. reflexivity.
Qed.

Lemma tamper_detected_witness :
  valid_block_size 64 /\
  pad 64 [["h"; "e"; "l"]%byte; ["l"; "o"]%byte]
  = Ok ["h"; "e"; "l"; "l"; "o"; x03; x03; x03]%byte /\
  unpad 64 [["h"; "e"; "l"; "l"]%byte; ["o"; x03; x02; x03]%byte]
  = Raise InvalidPadding /\
  unpad 64 [["h"; "e"; "l"; "l"; "o"; x03; x03; x07]%byte]
  = Raise InvalidPadding.
Proof.
  assert (Hv : valid_block_size 64) by (split; [lia | reflexivity]).
  split; [exact Hv | split; [reflexivity | split]].
  - apply (tamper_detected 64 [["h"; "e"; "l"]%byte; ["l"; "o"]%byte]
             [["h"; "e"; "l"; "l"]%byte; ["o"; x03; x02; x03]%byte]
             ["h"; "e"; "l"; "l"; "o"; x03; x03; x03]%byte 6 0 Hv eq_refl).
    + lia.
    + vm_compute. split; [discriminate | reflexivity].
    + reflexivity.
    + left. vm_compute. reflexivity.
  - apply (tamper_detected 64 [["h"; "e"; "l"]%byte; ["l"; "o"]%byte]
             [["h"; "e"; "l"; "l"; "o"; x03; x03; x07]%byte]
             ["h"; "e"; "l"; "l"; "o"; x03; x03; x03]%byte 7 2 Hv eq_refl).
    + lia.
    + vm_compute. split; [discriminate | reflexivity].
    + reflexivity.
    + right. right. vm_compute. split; discriminate.
Defined.

(** * Further properties of the module *)

(** ** Construction of the scheme *)

(** X1.  [PKCS7(b)] returns a scheme, which stores [b], exactly when
    [0 <= b < 256] and [b] is a multiple of 8; every other argument raises
    InvalidParameter.  An accepted block size is a whole number of bytes
    between 0 and 31, so that a pad length always fits the one byte that
    encodes it. *)
Theorem PKCS7_accepts_iff (b : Z) :
  ((exists s, PKCS7 b = Ok s) <-> 0 <= b < 256 /\ b mod 8 = 0) /\
  (forall s, PKCS7 b = Ok s ->
             scheme_block_size s = b /\ b = 8 * (b / 8) /\ 0 <= b / 8 <= 31) /\
  (~ (0 <= b < 256 /\ b mod 8 = 0) -> PKCS7 b = Raise InvalidParameter).
Proof.
  assert (Hcases : (0 <= b < 256 /\ b mod 8 = 0 /\
                    PKCS7 b = Ok {| scheme_block_size := b |}) \/
                   (~ (0 <= b < 256 /\ b mod 8 = 0) /\
                    PKCS7 b = Raise InvalidParameter)).
  { unfold PKCS7.
    destruct (0 <=? b) eqn:E1; destruct (b <? 256) eqn:E2; simpl;
      try (right; split; [|reflexivity];
           rewrite ?Z.leb_gt, ?Z.ltb_ge in *; lia).
    destruct (b mod 8 =? 0) eqn:E3; simpl.
    - left. apply Z.leb_le in E1. apply Z.ltb_lt in E2. apply Z.eqb_eq in E3.
      repeat split; auto.
    - right. apply Z.eqb_neq in E3. split; [tauto | reflexivity]. }
  destruct Hcases as [(Hb & Hm & Hok) | (Hno & Hraise)].
  - split; [|split].
    + split; [auto | intros _; eauto].
    + intros s Hs. rewrite Hok in Hs. injection Hs as <-.
      cbn [scheme_block_size].
      pose proof (Z.div_mod b 8 ltac:(lia)). lia.
    + tauto.
  - split; [|split].
    + split; [intros [s Hs]; congruence | tauto].
    + intros s Hs. congruence.
    + auto.
Qed.

Lemma PKCS7_accepts_iff_witness :
  (exists s, PKCS7 128 = Ok s) /\
  PKCS7 129 = Raise InvalidParameter /\
  PKCS7 256 = Raise InvalidParameter /\
  PKCS7 (-8) = Raise InvalidParameter.
Proof.
  split; [|split; [|split]].
  - apply (proj1 (PKCS7_accepts_iff 128)). split; [lia | reflexivity].
  - apply (proj2 (proj2 (PKCS7_accepts_iff 129))).
    intros [_ H]. discriminate H.
  - apply (proj2 (proj2 (PKCS7_accepts_iff 256))). lia.
  - apply (proj2 (proj2 (PKCS7_accepts_iff (-8)))). lia.
Defined.

(** ** Lengths and streaming *)

(** X2.  For a valid block size the padded output is longer than the
    message by [b/8 - len(m) mod (b/8)] bytes: between one byte and one
    block, and such that the total is a whole number of blocks. *)
Theorem padded_output_length (b : Z) (chunks : list bytes) (p : bytes) :
  valid_block_size b -> pad b chunks = Ok p ->
  len p = len (concat chunks) + (b / 8 - len (concat chunks) mod (b / 8)) /\
  len p mod (b / 8) = 0 /\
  len (concat chunks) + 1 <= len p <= len (concat chunks) + b / 8.
Proof.
  intros Hv Hpad. pose proof (valid_block_bytes b Hv) as Hb.
  destruct (pad_spec b chunks Hv) as (pb & Hpb & Hpad').
  rewrite Hpad' in Hpad. injection Hpad as <-.
  pose proof (pad_length_range b (concat chunks) Hv) as Hr.
  destruct (padded_length b (concat chunks) Hv) as [Hdiv _].
  rewrite len_app, len_repeat by lia. unfold pad_length in *.
  split; [reflexivity|]. split; [|lia].
  apply Z.mod_divide; [lia | assumption].
Qed.

Lemma padded_output_length_witness :
  valid_block_size 128 /\
  pad 128 [repeat "a"%byte 10; repeat "b"%byte 7] = Ok (repeat "a"%byte 10 ++ repeat "b"%byte 7 ++ repeat x0f 15) /\
  len (repeat "a"%byte 10 ++ repeat "b"%byte 7 ++ repeat x0f 15) mod (128 / 8) = 0.
Proof.
  assert (Hv : valid_block_size 128) by (split; [lia | reflexivity]).
  split; [exact Hv | split; [reflexivity|]].
  exact (proj1 (proj2 (padded_output_length 128
                         [repeat "a"%byte 10; repeat "b"%byte 7] _ Hv eq_refl))).
Defined.

(** X3.  A padder with a valid block size, fed any chunks: the chunks
    returned so far followed by the retained buffer are the input, the
    output is the largest whole number of blocks the input contains, and
    the buffer holds the remaining [len(m) mod (b/8)] bytes. *)
Theorem padder_streams_whole_blocks (b : Z) (s : scheme) (chunks : list bytes) :
  valid_block_size b -> PKCS7 b = Ok s ->
  exists outs buf,
    feed PaddingContext.update (padder s) (map Bytes chunks)
    = ({| PaddingContext.block_size := b;
          PaddingContext._buffer := Some buf |}, Ok outs) /\
    outs ++ buf = concat chunks /\
    len buf = len (concat chunks) mod (b / 8) /\
    len outs = b / 8 * (len (concat chunks) / (b / 8)).
Proof.
  intros Hv Hs. pose proof (valid_block_bytes b Hv) as Hb.
  pose proof (PKCS7_valid_inv b s Hv Hs) as Es. subst s.
  destruct (pad_feed_spec chunks (PaddingContext.init b) [] eq_refl)
    as (outs & buf & Hfeed & Happ & Hdiv & Hlt).
  { simpl; lia. }
  { change (0 < b / 8). lia. }
  simpl in *. exists outs, buf.
  pose proof (tail_length_mod (b / 8) outs buf ltac:(lia) Hdiv Hlt) as Hlen.
  rewrite Happ in Hlen.
  split; [exact Hfeed|]. split; [assumption|]. split; [assumption|].
  pose proof (Z.div_mod (len (concat chunks)) (b / 8) ltac:(lia)) as Hdm.
  rewrite <- Happ, len_app in *. lia.
Qed.

Lemma padder_streams_whole_blocks_witness :
  valid_block_size 16 /\ PKCS7 16 = Ok {| scheme_block_size := 16 |} /\
  exists outs buf,
    feed PaddingContext.update (padder {| scheme_block_size := 16 |})
         (map Bytes [["a"; "b"; "c"]%byte; ["d"; "e"]%byte])
    = ({| PaddingContext.block_size := 16;
          PaddingContext._buffer := Some buf |}, Ok outs) /\
    outs ++ buf = concat [["a"; "b"; "c"]%byte; ["d"; "e"]%byte] /\
    len buf = len (concat [["a"; "b"; "c"]%byte; ["d"; "e"]%byte]) mod (16 / 8) /\
    len outs
    = 16 / 8 * (len (concat [["a"; "b"; "c"]%byte; ["d"; "e"]%byte]) / (16 / 8)).
Proof.
  assert (Hv : valid_block_size 16) by (split; [lia | reflexivity]).
  split; [exact Hv | split; [reflexivity|]].
  exact (padder_streams_whole_blocks 16 {| scheme_block_size := 16 |} _ Hv eq_refl).
Defined.

(** X4.  An unpadder with a valid block size, fed any chunks: returned
    chunks followed by the retained buffer are the input; while the input
    is shorter than a block everything is retained, afterwards one full
    block plus the incomplete one.  So the output is one block short of the
    whole blocks received, and nothing is returned before two full blocks
    have arrived. *)
Theorem unpadder_withholds_last_block (b : Z) (s : scheme) (chunks : list bytes) :
  valid_block_size b -> PKCS7 b = Ok s ->
  exists outs buf,
    feed UnpaddingContext.update (unpadder s) (map Bytes chunks)
    = ({| UnpaddingContext.block_size := b;
          UnpaddingContext._buffer := Some buf |}, Ok outs) /\
    outs ++ buf = concat chunks /\
    len buf = (if len (concat chunks) <? b / 8 then len (concat chunks)
               else b / 8 + len (concat chunks) mod (b / 8)) /\
    len outs = b / 8 * Z.max (len (concat chunks) / (b / 8) - 1) 0 /\
    (len (concat chunks) < 2 * (b / 8) -> outs = []).
Proof.
  intros Hv Hs. pose proof (valid_block_bytes b Hv) as Hb.
  pose proof (PKCS7_valid_inv b s Hv Hs) as Es. subst s.
  destruct (unpad_feed_spec chunks (UnpaddingContext.init b) [] eq_refl)
    as (outs & buf & Hfeed & Happ & Hdiv & Hlt & Hge).
  { simpl; lia. }
  { change (0 < 2 * (b / 8)). lia. }
  cbn [UnpaddingContext.block_size UnpaddingContext.init app] in *.
  exists outs, buf. rewrite <- Happ in Hge.
  pose proof (unpad_tail_length (b / 8) outs buf ltac:(lia) Hdiv Hlt Hge) as Hlen.
  rewrite Happ in Hlen.
  set (m := concat chunks) in *.
  pose proof (Z.div_mod (len m) (b / 8) ltac:(lia)) as Hdm.
  pose proof (Z.mod_pos_bound (len m) (b / 8) ltac:(lia)) as Hr.
  pose proof (len_nonneg m) as Hm.
  assert (Hq : 0 <= len m / (b / 8)) by (apply Z.div_pos; lia).
  assert (Hsum : len m = len outs + len buf) by (rewrite <- Happ, len_app; reflexivity).
  assert (Houts : len outs = b / 8 * Z.max (len m / (b / 8) - 1) 0).
  { destruct (len m <? b / 8) eqn:E.
    - apply Z.ltb_lt in E.
      assert (len m / (b / 8) = 0) by (apply Z.div_small; lia).
      lia.
    - apply Z.ltb_ge in E.
      assert (1 <= len m / (b / 8)) by nia.
      lia. }
  split; [exact Hfeed|]. split; [assumption|]. split; [assumption|].
  split; [assumption|].
  intros Hsmall. apply len_nil_inv. rewrite Houts.
  assert (Hq1 : len m / (b / 8) <= 1).
  { destruct (Z_le_gt_dec (len m / (b / 8)) 1) as [Hle | Hgt]; [assumption|].
    assert (b / 8 * 2 <= b / 8 * (len m / (b / 8)))
      by (apply Z.mul_le_mono_nonneg_l; lia).
    lia. }
  replace (Z.max (len m / (b / 8) - 1) 0) with 0 by lia. lia.
Qed.

Lemma unpadder_withholds_last_block_witness :
  valid_block_size 16 /\ PKCS7 16 = Ok {| scheme_block_size := 16 |} /\
  exists outs buf,
    feed UnpaddingContext.update (unpadder {| scheme_block_size := 16 |})
         (map Bytes [["a"; "b"; "c"]%byte; ["d"; "e"]%byte])
    = ({| UnpaddingContext.block_size := 16;
          UnpaddingContext._buffer := Some buf |}, Ok outs) /\
    outs ++ buf = concat [["a"; "b"; "c"]%byte; ["d"; "e"]%byte] /\
    len buf = 3 /\ len outs = 2.
Proof.
  assert (Hv : valid_block_size 16) by (split; [lia | reflexivity]).
  split; [exact Hv | split; [reflexivity|]].
  destruct (unpadder_withholds_last_block 16 {| scheme_block_size := 16 |}
              [["a"; "b"; "c"]%byte; ["d"; "e"]%byte] Hv eq_refl)
    as (outs & buf & H1 & H2 & H3 & H4 & _).
  exists outs, buf. repeat split; assumption.
Defined.

(** ** Refused calls *)

Lemma pad_after_bytes_only (calls : list pydata) :
  forall c : PaddingContext.t,
    pad_after c calls = pad_after c (map Bytes (byte_chunks calls)).
Proof.
  unfold pad_after.
  induction calls as [|[d|txt] calls IH]; intros c; simpl.
  - reflexivity.
  - apply IH.
  - rewrite <- IH. f_equal.
    unfold PaddingContext.update. destruct (PaddingContext._buffer c); reflexivity.
Qed.

Lemma unpad_after_bytes_only (calls : list pydata) :
  forall c : UnpaddingContext.t,
    unpad_after c calls = unpad_after c (map Bytes (byte_chunks calls)).
Proof.
  unfold unpad_after.
  induction calls as [|[d|txt] calls IH]; intros c; simpl.
  - reflexivity.
  - apply IH.
  - rewrite <- IH. f_equal.
    unfold UnpaddingContext.update. destruct (UnpaddingContext._buffer c); reflexivity.
Qed.

(** X5.  An [update] with text never returns: it raises EncodingError on
    an active engine (UseAfterFinalize on a finalized one) and leaves the
    engine as it was.  Hence text calls mixed into a sequence of [update]
    calls do not affect the engine: it ends in the state the byte calls
    alone lead to, whatever the block size. *)
Theorem text_updates_ignored
        (pc : PaddingContext.t) (uc : UnpaddingContext.t)
        (txt : String.string) (calls : list pydata) :
  (PaddingContext.update pc (Text txt)
   = (pc, Raise match PaddingContext._buffer pc with
                 | Some _ => EncodingError
                 | None => UseAfterFinalize
                 end)) /\
  (UnpaddingContext.update uc (Text txt)
   = (uc, Raise match UnpaddingContext._buffer uc with
                 | Some _ => EncodingError
                 | None => UseAfterFinalize
                 end)) /\
  pad_after pc calls = pad_after pc (map Bytes (byte_chunks calls)) /\
  unpad_after uc calls = unpad_after uc (map Bytes (byte_chunks calls)).
Proof.
  split; [|split; [|split]].
  - unfold PaddingContext.update. destruct (PaddingContext._buffer pc); reflexivity.
  - unfold UnpaddingContext.update. destruct (UnpaddingContext._buffer uc); reflexivity.
  - apply pad_after_bytes_only.
  - apply unpad_after_bytes_only.
Qed.

(** X6.  A call that raises anything but ZeroDivisionError leaves the
    engine exactly as it was; in particular an unpadder whose [finalize]
    failed with InvalidPadding is still active with its buffer.  A call
    that raises ZeroDivisionError is an [update] with bytes on an active
    engine, and those bytes have already been appended to the buffer. *)
Theorem raise_leaves_engine
        (pc pc' : PaddingContext.t) (uc uc' : UnpaddingContext.t)
        (k : call) (e : exn) :
  (pad_call pc k = (pc', Raise e) ->
   (e <> ZeroDivisionError -> pc' = pc) /\
   (e = ZeroDivisionError ->
    exists buf d, k = Update (Bytes d) /\
                  PaddingContext._buffer pc = Some buf /\
                  pc' = PaddingContext.set_buffer pc (Some (buf ++ d)))) /\
  (unpad_call uc k = (uc', Raise e) ->
   (e <> ZeroDivisionError -> uc' = uc) /\
   (e = ZeroDivisionError ->
    exists buf d, k = Update (Bytes d) /\
                  UnpaddingContext._buffer uc = Some buf /\
                  uc' = UnpaddingContext.set_buffer uc (Some (buf ++ d)))).
Proof.
  split.
  - destruct k as [[d|txt]|]; simpl;
      unfold PaddingContext.update, PaddingContext.finalize;
      destruct (PaddingContext._buffer pc) as [buf|] eqn:Hbuf; simpl.
    + destruct (PaddingContext.block_size pc / 8 =? 0).
      * intros H; injection H as <- <-. split; [congruence|].
        intros _. exists buf, d. auto.
      * discriminate.
    + intros H; injection H as <- <-. split; [auto | discriminate].
    + intros H; injection H as <- <-. split; [auto | discriminate].
    + intros H; injection H as <- <-. split; [auto | discriminate].
    + destruct (int2byte _); [discriminate|].
      intros H; injection H as <- <-. split; [auto | discriminate].
    + intros H; injection H as <- <-. split; [auto | discriminate].
  - destruct k as [[d|txt]|]; simpl;
      unfold UnpaddingContext.update, UnpaddingContext.finalize;
      destruct (UnpaddingContext._buffer uc) as [buf|] eqn:Hbuf; simpl.
    + destruct (UnpaddingContext.block_size uc / 8 =? 0).
      * intros H; injection H as <- <-. split; [congruence|].
        intros _. exists buf, d. auto.
      * discriminate.
    + intros H; injection H as <- <-. split; [auto | discriminate].
    + intros H; injection H as <- <-. split; [auto | discriminate].
    + intros H; injection H as <- <-. split; [auto | discriminate].
    + destruct (indexbytes_last buf) as [p|].
      * destruct (p >? _).
        { intros H; injection H as <- <-. split; [auto | discriminate]. }
        destruct (negb _); [|discriminate].
        intros H; injection H as <- <-. split; [auto | discriminate].
      * intros H; injection H as <- <-. split; [auto | discriminate].
    + intros H; injection H as <- <-. split; [auto | discriminate].
Qed.

Lemma raise_leaves_engine_witness :
  fst (UnpaddingContext.finalize
         {| UnpaddingContext.block_size := 64;
            UnpaddingContext._buffer := Some [x01; x02] |})
  = {| UnpaddingContext.block_size := 64;
       UnpaddingContext._buffer := Some [x01; x02] |} /\
  exists buf d,
    Update (Bytes [x07]) = Update (Bytes d) /\
    PaddingContext._buffer (PaddingContext.init 0) = Some buf /\
    fst (PaddingContext.update (PaddingContext.init 0) (Bytes [x07]))
    = PaddingContext.set_buffer (PaddingContext.init 0) (Some (buf ++ d)).
Proof.
  split.
  - refine (proj1 (proj2 (raise_leaves_engine
                            (PaddingContext.init 0) (PaddingContext.init 0)
                            {| UnpaddingContext.block_size := 64;
                               UnpaddingContext._buffer := Some [x01; x02] |}
                            _ Finalize InvalidPadding) eq_refl) _).
    discriminate.
  - exact (proj2 (proj1 (raise_leaves_engine
                           (PaddingContext.init 0)
                           (fst (PaddingContext.update (PaddingContext.init 0)
                                                       (Bytes [x07])))
                           (UnpaddingContext.init 0) (UnpaddingContext.init 0)
                           (Update (Bytes [x07])) ZeroDivisionError) eq_refl)
                 eq_refl).
Defined.

(** ** What unpadding returns *)

Lemma unpad_finalize_ok_shape (c c' : UnpaddingContext.t) (buf fin : bytes) :
  UnpaddingContext._buffer c = Some buf ->
  UnpaddingContext.finalize c = (c', Ok fin) ->
  exists suf, buf = fin ++ suf /\ 1 <= len suf.
Proof.
  intros Hbuf. unfold UnpaddingContext.finalize. rewrite Hbuf.
  destruct buf as [|x0 rest] eqn:Eb; [discriminate|]. rewrite <- Eb in *.
  assert (Hne : buf <> []) by (rewrite Eb; discriminate).
  rewrite (indexbytes_last_spec buf x00 Hne).
  set (p := byte_val (last buf x00)).
  destruct (p >? _); [discriminate|].
  destruct (negb _); [discriminate|].
  intros H; injection H as _ <-.
  pose proof (byte_val_range (last buf x00)) as Hp. fold p in Hp.
  assert (Hlen : 1 <= len buf) by (rewrite Eb; unfold len; simpl; lia).
  unfold slice_to.
  set (n := Z.to_nat (slice_bound (- p) (len buf))).
  assert (Hn : Z.of_nat n <= len buf - 1).
  { unfold n, slice_bound. destruct (- p <? 0) eqn:E.
    - apply Z.ltb_lt in E. lia.
    - lia. }
  exists (skipn n buf). split; [symmetry; apply firstn_skipn|].
  unfold len in *. rewrite length_skipn. lia.
Qed.

(** X7.  Whatever the input and its division into chunks, when unpadding
    with a valid block size succeeds the result is a proper prefix of the
    input: at least one byte, and fewer than two blocks, are removed from
    its end. *)
Theorem unpad_returns_proper_prefix (b : Z) (chunks : list bytes) (r : bytes) :
  valid_block_size b -> unpad b chunks = Ok r ->
  exists suffix,
    concat chunks = r ++ suffix /\ 1 <= len suffix < 2 * (b / 8).
Proof.
  intros Hv Hun. pose proof (valid_block_bytes b Hv) as Hb.
  unfold unpad in Hun. rewrite (PKCS7_valid b Hv) in Hun.
  unfold drive, unpadder in Hun. cbn [scheme_block_size] in Hun.
  destruct (unpad_feed_spec chunks (UnpaddingContext.init b) [] eq_refl)
    as (outs & buf & Hfeed & Happ & _ & Hlt & _).
  { simpl; lia. }
  { change (0 < 2 * (b / 8)). lia. }
  cbn [UnpaddingContext.block_size UnpaddingContext.init app] in *.
  rewrite Hfeed in Hun.
  destruct (UnpaddingContext.finalize _) as [c' [fin|e]] eqn:Hfin; [|discriminate].
  injection Hun as <-.
  destruct (unpad_finalize_ok_shape
              (UnpaddingContext.set_buffer (UnpaddingContext.init b) (Some buf))
              c' buf fin eq_refl Hfin) as (suf & Hsuf & Hlen).
  exists suf. split.
  - rewrite <- Happ, Hsuf, app_assoc. reflexivity.
  - split; [assumption|]. rewrite Hsuf, len_app in Hlt.
    pose proof (len_nonneg fin). lia.
Qed.

Lemma unpad_returns_proper_prefix_witness :
  valid_block_size 16 /\
  unpad 16 [["a"; "b"]%byte; ["c"; x01]%byte] = Ok ["a"; "b"; "c"]%byte /\
  exists suffix,
    concat [["a"; "b"]%byte; ["c"; x01]%byte] = ["a"; "b"; "c"]%byte ++ suffix /\
    1 <= len suffix < 2 * (16 / 8).
Proof.
  assert (Hv : valid_block_size 16) by (split; [lia | reflexivity]).
  split; [exact Hv | split; [reflexivity|]].
  exact (unpad_returns_proper_prefix 16 [["a"; "b"]%byte; ["c"; x01]%byte]
                                     ["a"; "b"; "c"]%byte Hv eq_refl).
Defined.

(** X8.  Padding is injective: for a valid block size, two inputs with the
    same padded encoding are the same byte sequence, however each was
    divided into chunks. *)
Theorem pad_injective (b : Z) (chunks1 chunks2 : list bytes) (p : bytes) :
  valid_block_size b ->
  pad b chunks1 = Ok p -> pad b chunks2 = Ok p ->
  concat chunks1 = concat chunks2.
Proof.
  intros Hv H1 H2.
  destruct (pad_spec b chunks1 Hv) as (pb1 & Hpb1 & Hp1).
  destruct (pad_spec b chunks2 Hv) as (pb2 & Hpb2 & Hp2).
  pose proof (pad_length_range b (concat chunks1) Hv) as Hr1.
  pose proof (pad_length_range b (concat chunks2) Hv) as Hr2.
  rewrite Hp1 in H1. rewrite Hp2 in H2. injection H1 as H1. injection H2 as H2.
  assert (Heq : concat chunks1 ++ repeat pb1 (Z.to_nat (pad_length b (concat chunks1)))
                = concat chunks2 ++ repeat pb2 (Z.to_nat (pad_length b (concat chunks2))))
    by congruence.
  assert (Hpb : pb1 = pb2).
  { apply (f_equal (fun s => last s x00)) in Heq.
    rewrite !last_app_repeat in Heq by lia. assumption. }
  subst pb2.
  assert (Hlen : pad_length b (concat chunks1) = pad_length b (concat chunks2))
    by congruence.
  rewrite Hlen in Heq. apply app_inv_tail in Heq. assumption.
Qed.

Lemma pad_injective_witness :
  valid_block_size 64 /\
  concat [["a"; "b"]%byte; ["c"]%byte] = concat [["a"]%byte; ["b"; "c"]%byte].
Proof.
  assert (Hv : valid_block_size 64) by (split; [lia | reflexivity]).
  split; [exact Hv|].
  exact (pad_injective 64 [["a"; "b"]%byte; ["c"]%byte]
                       [["a"]%byte; ["b"; "c"]%byte]
                       ["a"; "b"; "c"; x05; x05; x05; x05; x05]%byte
                       Hv eq_refl eq_refl).
Defined.

Lemma last_app_nonempty {A} (l1 l2 : list A) (d : A) :
  l2 <> [] -> last (l1 ++ l2) d = last l2 d.
Proof.
  intros Hne. induction l1 as [|a l1 IH]; [reflexivity|].
  simpl. destruct (l1 ++ l2) eqn:E; [|assumption].
  apply app_eq_nil in E. destruct E; contradiction.
Qed.

(** The unpadder fed a valid block size and any chunks ends up active, and
    the last byte it holds is the last byte of the input. *)
Lemma unpad_feed_last (b : Z) (chunks : list bytes) :
  valid_block_size b ->
  exists outs buf,
    feed UnpaddingContext.update (UnpaddingContext.init b) (map Bytes chunks)
    = (UnpaddingContext.set_buffer (UnpaddingContext.init b) (Some buf), Ok outs) /\
    outs ++ buf = concat chunks /\
    (b / 8 | len outs) /\ len buf < 2 * (b / 8) /\
    (b / 8 <= len (concat chunks) -> b / 8 <= len buf) /\
    (concat chunks <> [] ->
     buf <> [] /\ last buf x00 = last (concat chunks) x00).
Proof.
  intros Hv. pose proof (valid_block_bytes b Hv) as Hb.
  destruct (unpad_feed_spec chunks (UnpaddingContext.init b) [] eq_refl)
    as (outs & buf & Hfeed & Happ & Hdiv & Hlt & Hge).
  { simpl; lia. }
  { change (0 < 2 * (b / 8)). lia. }
  cbn [UnpaddingContext.block_size UnpaddingContext.init app] in *.
  exists outs, buf. repeat split; try assumption.
  - intros ->. rewrite app_nil_r in Happ. subst outs.
    destruct (Z_lt_ge_dec (len (concat chunks)) (b / 8)) as [Hs | Hbig].
    + destruct Hdiv as [j Hj]. pose proof (len_nonneg (concat chunks)).
      assert (j = 0) by nia. apply H, len_nil_inv. lia.
    + apply Z.ge_le, Hge in Hbig. unfold len in Hbig; simpl in Hbig. lia.
  - assert (Hne : buf <> []).
    { intros ->. rewrite app_nil_r in Happ. subst outs.
      destruct (Z_lt_ge_dec (len (concat chunks)) (b / 8)) as [Hs | Hbig].
      + destruct Hdiv as [j Hj]. pose proof (len_nonneg (concat chunks)).
        assert (j = 0) by nia. apply H, len_nil_inv. lia.
      + apply Z.ge_le, Hge in Hbig. unfold len in Hbig; simpl in Hbig. lia. }
    rewrite <- Happ. symmetry. apply last_app_nonempty. assumption.
Qed.

(** X9.  Padding undoes unpadding on block-aligned input: for a valid
    block size, if the input is a whole number of blocks, its last byte is
    not 0, and unpadding it succeeds, then padding the result, divided into
    chunks in any way, gives the input back. *)
Theorem unpad_pad_roundtrip (b : Z) (chunks chunks' : list bytes) (r : bytes) :
  valid_block_size b ->
  (b / 8 | len (concat chunks)) ->
  last (concat chunks) x00 <> x00 ->
  unpad b chunks = Ok r ->
  concat chunks' = r ->
  pad b chunks' = Ok (concat chunks).
Proof.
  intros Hv Hdiv Hlast Hun Hcat. pose proof (valid_block_bytes b Hv) as Hb.
  set (m := concat chunks) in *.
  assert (Hm : m <> []) by (intros E; rewrite E in Hlast; apply Hlast; reflexivity).
  destruct (unpad_feed_last b chunks Hv)
    as (outs & buf & Hfeed & Happ & Hdo & Hlt & Hge & Hl).
  fold m in Happ, Hge, Hl. destruct (Hl Hm) as [Hne Hlb].
  unfold unpad in Hun. rewrite (PKCS7_valid b Hv) in Hun.
  unfold drive, unpadder in Hun. cbn [scheme_block_size] in Hun.
  rewrite Hfeed in Hun.
  set (c := UnpaddingContext.set_buffer (UnpaddingContext.init b) (Some buf)) in *.
  (* the buffer is exactly the last block *)
  assert (Hlenm : b / 8 <= len m).
  { destruct Hdiv as [j Hj]. pose proof (len_nonneg m).
    assert (len m <> 0) by (intros E; apply Hm, len_nil_inv, E).
    assert (1 <= j) by nia. nia. }
  assert (Hbuf : len buf = b / 8).
  { apply (unpad_keeps_last_block (b / 8) outs buf); try assumption; try lia.
    now rewrite Happ. }
  (* its last byte announces a pad of at least one byte *)
  set (pb := last buf x00) in *. set (P := byte_val pb).
  assert (HP : 1 <= P).
  { pose proof (byte_val_range pb). fold P in H.
    assert (P <> 0); [|lia].
    intros E. apply Hlast. rewrite <- Hlb. apply byte_val_inj. exact E. }
  set (n := Z.to_nat (len buf - Z.min P (len buf))).
  assert (Hsplit : buf = firstn n buf ++ skipn n buf) by (symmetry; apply firstn_skipn).
  assert (Hwin : len (skipn n buf) = Z.min P (len buf)).
  { unfold len, n. rewrite length_skipn. unfold len. lia. }
  pose proof (unpad_finalize_cases c buf (firstn n buf) (skipn n buf)
                                   eq_refl Hne Hsplit HP Hwin) as Hfin.
  fold pb in Hfin. fold P in Hfin. rewrite Hfin in Hun.
  destruct (P >? UnpaddingContext.block_size c / 8) eqn:Egt; [discriminate|].
  destruct (forallb (fun x => byte_val x =? P) (skipn n buf)) eqn:Eall;
    [|discriminate].
  simpl in Hun. injection Hun as Hr.
  rewrite Z.gtb_ltb in Egt. apply Z.ltb_ge in Egt.
  change (UnpaddingContext.block_size c / 8) with (b / 8) in Egt.
  rewrite Z.min_l in Hwin by lia.
  (* the window is [P] bytes of value [P] *)
  assert (Hrep : skipn n buf = repeat pb (Z.to_nat P)).
  { replace (Z.to_nat P) with (length (skipn n buf)) by (unfold len in Hwin; lia).
    apply Forall_eq_repeat, Forall_forall. intros x Hx.
    rewrite forallb_forall in Eall. apply byte_val_inj.
    symmetry. apply Z.eqb_eq, Eall, Hx. }
  assert (Hmr : m = r ++ repeat pb (Z.to_nat P)).
  { rewrite <- Happ, Hsplit, Hrep, <- Hr, app_assoc. reflexivity. }
  (* padding [r] appends the same [P] bytes *)
  destruct (pad_spec b chunks' Hv) as (pb' & Hpb' & Hpad).
  rewrite Hcat in Hpb', Hpad.
  assert (HPr : pad_length b r = P).
  { unfold pad_length. destruct Hdiv as [j Hj].
    assert (Hlr : len r = (b / 8 - P) + (j - 1) * (b / 8)).
    { rewrite Hmr, len_app, len_repeat in Hj by lia. lia. }
    rewrite Hlr, Z.mod_add, Z.mod_small by lia. lia. }
  rewrite HPr in Hpb', Hpad.
  assert (pb' = pb) by (apply byte_val_inj; exact Hpb'). subst pb'.
  rewrite Hpad, Hmr. reflexivity.
Qed.

Lemma unpad_pad_roundtrip_witness :
  valid_block_size 16 /\
  unpad 16 [["a"; "b"; "c"]%byte; [x01]] = Ok ["a"; "b"; "c"]%byte /\
  pad 16 [["a"]%byte; ["b"; "c"]%byte] = Ok (concat [["a"; "b"; "c"]%byte; [x01]]).
Proof.
  assert (Hv : valid_block_size 16) by (split; [lia | reflexivity]).
  split; [exact Hv | split; [reflexivity|]].
  apply (unpad_pad_roundtrip 16 [["a"; "b"; "c"]%byte; [x01]]
                             [["a"]%byte; ["b"; "c"]%byte]
                             ["a"; "b"; "c"]%byte Hv).
  - exists 2. reflexivity.
  - discriminate.
  - reflexivity.
  - reflexivity.
Defined.

(** X10.  An input whose last byte announces more pad bytes than a block
    holds is rejected: for a valid block size and any division into chunks,
    unpadding a non-empty input whose last byte exceeds [b/8] raises
    InvalidPadding. *)
Theorem unpad_rejects_oversize_pad (b : Z) (chunks : list bytes) :
  valid_block_size b ->
  concat chunks <> [] ->
  b / 8 < byte_val (last (concat chunks) x00) ->
  unpad b chunks = Raise InvalidPadding.
Proof.
  intros Hv Hm Hbig.
  destruct (unpad_feed_last b chunks Hv)
    as (outs & buf & Hfeed & _ & _ & _ & _ & Hl).
  destruct (Hl Hm) as [Hne Hlb].
  unfold unpad. rewrite (PKCS7_valid b Hv).
  unfold drive, unpadder. cbn [scheme_block_size]. rewrite Hfeed.
  rewrite (unpad_finalize_oversize
             (UnpaddingContext.set_buffer (UnpaddingContext.init b) (Some buf))
             buf eq_refl Hne).
  - reflexivity.
  - rewrite Hlb. exact Hbig.
Qed.

Lemma unpad_rejects_oversize_pad_witness :
  valid_block_size 16 /\
  unpad 16 [["a"; "b"]%byte; ["c"; x03]%byte] = Raise InvalidPadding.
Proof.
  assert (Hv : valid_block_size 16) by (split; [lia | reflexivity]).
  split; [exact Hv|].
  apply (unpad_rejects_oversize_pad 16 [["a"; "b"]%byte; ["c"; x03]%byte] Hv).
  - discriminate.
  - vm_compute. reflexivity.
Defined.

(** X11.  InvalidPadding comes from the unpadder's [finalize] and from
    nowhere else: no call on a padder and no [update] on an unpadder raises
    it; and it is the only exception [finalize] raises on an active
    unpadder, whatever is wrong with the buffer. *)
Theorem invalid_padding_only_from_unpad_finalize
        (pc : PaddingContext.t) (uc : UnpaddingContext.t)
        (k : call) (d : pydata) (buf : bytes) (e : exn) :
  snd (pad_call pc k) <> Raise InvalidPadding /\
  snd (UnpaddingContext.update uc d) <> Raise InvalidPadding /\
  (UnpaddingContext._buffer uc = Some buf ->
   snd (UnpaddingContext.finalize uc) = Raise e -> e = InvalidPadding).
Proof.
  split; [|split].
  - destruct k as [[x|txt]|]; simpl;
      unfold PaddingContext.update, PaddingContext.finalize;
      destruct (PaddingContext._buffer pc); simpl; try discriminate.
    + destruct (_ =? 0); discriminate.
    + destruct (int2byte _); discriminate.
  - unfold UnpaddingContext.update.
    destruct (UnpaddingContext._buffer uc); [|discriminate].
    destruct d as [x|txt]; [|discriminate]. simpl.
    destruct (_ =? 0); discriminate.
  - intros Hbuf. unfold UnpaddingContext.finalize. rewrite Hbuf.
    destruct (indexbytes_last buf) as [p|]; simpl; [|congruence].
    destruct (p >? _); simpl; [congruence|].
    destruct (negb _); simpl; [congruence | discriminate].
Qed.

Lemma invalid_padding_only_from_unpad_finalize_witness :
  UnpaddingContext._buffer
    {| UnpaddingContext.block_size := 64;
       UnpaddingContext._buffer := Some [x02; x03; x02] |}
  = Some [x02; x03; x02] /\
  snd (UnpaddingContext.finalize
         {| UnpaddingContext.block_size := 64;
            UnpaddingContext._buffer := Some [x02; x03; x02] |})
  = Raise InvalidPadding.
Proof.
  split; [reflexivity|].
  destruct (snd (UnpaddingContext.finalize
                   {| UnpaddingContext.block_size := 64;
                      UnpaddingContext._buffer := Some [x02; x03; x02] |}))
    as [r|e] eqn:E.
  - discriminate E.
  - f_equal.
    exact (proj2 (proj2 (invalid_padding_only_from_unpad_finalize
                           (PaddingContext.init 64)
                           {| UnpaddingContext.block_size := 64;
                              UnpaddingContext._buffer := Some [x02; x03; x02] |}
                           Finalize (Bytes []) [x02; x03; x02] e))
                 eq_refl E).
Defined.
